(** * GOA-homeworks: the promise exercises and the points counter

    The asynchronous exercises of [level90/home/js.js], [level91/work/js.js]
    and [level92/home/js.js] are written against the built-in [Promise],
    [Promise.all], [async]/[await] and [setTimeout].  They are embedded here
    over a small executable model of the JavaScript job model: a promise
    heap, a microtask queue, a timer list and a trace of observable events.
    The built-ins follow the abstract operations of ECMAScript:
    [settle] is the pair of resolving functions of a promise (called with
    values that are not thenables, as everywhere in the exercises),
    [subscribe] is PerformPromiseThen, [promise_all] is Promise.all with its
    resolve-element functions, [resume] is the continuation of an [await].
    Closures stored in the heap are defunctionalised into the data types
    [reaction], [frame] and [callback].

    Numbers are the integers the exercises compute with, all of them
    doubles on which the arithmetic of the exercises is exact (the one place
    a file can leave that range, [points++] at 2^53, rounds as a double
    does); times are in milliseconds; the number returned by [Math.random()] is a parameter, a
    rational in [0, 1) (every double is one, and multiplying a double by 4
    is exact).

    [project/js2.js] (the points counter) is embedded separately in
    [Module Points]. *)

From Stdlib Require Import ZArith QArith Qround.
From stdpp Require Import base option list sorting gmap strings.

Close Scope Q_scope.
Local Open Scope nat_scope.
Set Warnings "-register-all".

(** ** Values and completions *)

(** The JavaScript values the exercises manipulate. *)
Inductive val :=
| VUndef
| VNum (n : Z)
| VStr (s : string)
| VArr (l : list val).

(** How a function body or a deferred computation ends: [return v] /
    fulfilled with [v], or [throw e] / rejected with [e]. *)
Inductive completion :=
| Normal (v : val)
| Throw (e : val).

(** Promises are identified by their position of creation. *)
Abbreviation pid := nat (only parsing).

(** A [then] callback: it may call [console.log] and ends by returning or
    throwing.  [hname] identifies the closure in the trace. *)
Record handler := Handler {
  hname : string;
  hbody : val -> list val * completion
}.

(** The [async] functions [first], [second], [third] of level92:
    [await new Promise(r => setTimeout(r, delay))] followed by the end of the
    body. *)
Record step_fn := StepFn {
  delay : nat;
  body_end : completion
}.

(** Suspended [async] activations, waiting at an [await]. *)
Inductive frame :=
| FStep (self : pid) (c : completion)
| FChain (self : pid) (k : nat) (rest : list step_fn).

(** What is queued on a pending promise. *)
Inductive reaction :=
| RThen (onF onR : option handler) (derived : pid)
| RAllElement (agg : nat) (index : nat)
| RAwait (f : frame).

(** The state diagram at the top of level90. *)
Inductive pstate := Pending | Fulfilled | Rejected.

(** A promise: its state, the value it fulfilled with, the error it rejected
    with, and the reactions waiting for it to settle. *)
Record promise := Promise {
  state : pstate;
  value : option val;
  error : option val;
  reactions : list reaction
}.

(** The bookkeeping of one [Promise.all] call: the values collected so far
    ([None] while the element's resolve function has not been called), the
    count of outstanding elements and the promise the call returned. *)
Record all_record := AllRecord {
  values : list (option val);
  remaining : nat;
  capability : pid
}.

(** Timer callbacks. [CbStudents] is the callback of level90, closed over the
    number [Math.random()] will return. *)
Inductive callback :=
| CbResolve (p : pid) (v : val)
| CbReject (p : pid) (e : val)
| CbStudents (p : pid) (r : Q).

(** A timer registered by [setTimeout], with the time at which it is due. *)
Record timer := Timer {
  fire_at : nat;
  cb : callback
}.

(** What a run records: the call of step [k] of a chain, returning promise
    [p]; the settlement of a promise; the call of a [then] handler; a line
    printed by [console.log]. *)
Inductive event :=
| EvInvoke (k : nat) (p : pid)
| EvSettle (p : pid) (c : completion)
| EvCall (h : string) (arg : val)
| EvLog (v : val).

(** The state of the runtime. *)
Record rt := Rt {
  heap : gmap nat promise;
  next : pid;
  aggs : gmap nat all_record;
  next_agg : nat;
  jobs : list (reaction * completion);
  timers : list timer;
  clock : nat;
  trace : list event
}.

(** The state in which a script starts. *)
Definition init : rt := Rt ∅ 0 ∅ 0 [] [] 0 [].

(** Field updates. *)

Definition set_heap (h : gmap nat promise) (st : rt) : rt :=
  Rt h (next st) (aggs st) (next_agg st) (jobs st) (timers st) (clock st) (trace st).
Definition set_aggs (a : gmap nat all_record) (st : rt) : rt :=
  Rt (heap st) (next st) a (next_agg st) (jobs st) (timers st) (clock st) (trace st).
Definition set_jobs (j : list (reaction * completion)) (st : rt) : rt :=
  Rt (heap st) (next st) (aggs st) (next_agg st) j (timers st) (clock st) (trace st).
Definition set_timers (t : list timer) (st : rt) : rt :=
  Rt (heap st) (next st) (aggs st) (next_agg st) (jobs st) t (clock st) (trace st).
Definition emit (es : list event) (st : rt) : rt :=
  Rt (heap st) (next st) (aggs st) (next_agg st) (jobs st) (timers st) (clock st)
     (trace st ++ es).

(** ** The promise primitive *)

Definition fresh_promise : promise := Promise Pending None None [].

(** The one transition of a promise. A settled promise ignores it. *)
Definition settle_promise (c : completion) (pr : promise) : promise :=
  match state pr with
  | Pending =>
      match c with
      | Normal v => Promise Fulfilled (Some v) None []
      | Throw e => Promise Rejected None (Some e) []
      end
  | _ => pr
  end.

(** How a promise ended, if it has. *)
Definition outcome (pr : promise) : option completion :=
  match state pr with
  | Pending => None
  | Fulfilled => Normal <$> value pr
  | Rejected => Throw <$> error pr
  end.

(** [new Promise(...)]: the promise object, before the executor runs. *)
Definition alloc (st : rt) : pid * rt :=
  (next st,
   Rt (<[next st := fresh_promise]> (heap st)) (S (next st)) (aggs st) (next_agg st)
      (jobs st) (timers st) (clock st) (trace st)).

(** The resolving functions [resolve(v)] and [reject(e)] of promise [p]: on a
    pending promise they store the outcome and queue one job per registered
    reaction; on a settled one they do nothing. *)
Definition settle (p : pid) (c : completion) (st : rt) : rt :=
  match heap st !! p with
  | Some pr =>
      match state pr with
      | Pending =>
          emit [EvSettle p c]
            (set_jobs (jobs st ++ map (fun r => (r, c)) (reactions pr))
               (set_heap (<[p := settle_promise c pr]> (heap st)) st))
      | _ => st
      end
  | None => st
  end.

(** Registration of a reaction on [p]: kept on a pending promise, queued at
    once as a job on a settled one. *)
Definition subscribe (p : pid) (r : reaction) (st : rt) : rt :=
  match heap st !! p with
  | Some pr =>
      match outcome pr with
      | None =>
          set_heap (<[p := Promise (state pr) (value pr) (error pr) (reactions pr ++ [r])]>
                      (heap st)) st
      | Some c => set_jobs (jobs st ++ [(r, c)]) st
      end
  | None => st
  end.

(** [p.then(onF, onR)]. *)
Definition promise_then (p : pid) (onF onR : option handler) (st : rt) : pid * rt :=
  let '(d, st1) := alloc st in
  (d, subscribe p (RThen onF onR d) st1).

(** [setTimeout(cb, ms)]. *)
Definition setTimeout (c : callback) (ms : nat) (st : rt) : rt :=
  set_timers (timers st ++ [Timer (clock st + ms) c]) st.

(** ** [Promise.all] *)

(** The resolve-element function of element [i] of the call [a]: a second
    call for the same element is ignored; otherwise the value is stored, the
    count of outstanding elements decremented, and at zero the returned
    promise is resolved with the array of values. *)
Definition resolve_element (a i : nat) (x : val) (st : rt) : rt :=
  match aggs st !! a with
  | Some ag =>
      match values ag !! i with
      | Some None =>
          let vs := <[i := Some x]> (values ag) in
          let n := pred (remaining ag) in
          let st1 := set_aggs (<[a := AllRecord vs n (capability ag)]> (aggs st)) st in
          if n is 0
          then settle (capability ag) (Normal (VArr (from_option id VUndef <$> vs))) st1
          else st1
      | _ => st
      end
  | None => st
  end.

(** The loop of [Promise.all] over its input, from index [i]. *)
Fixpoint all_elements (a i : nat) (ps : list pid) (st : rt) : rt :=
  match ps with
  | [] => st
  | p :: ps' =>
      let st1 :=
        match aggs st !! a with
        | Some ag =>
            set_aggs (<[a := AllRecord (values ag ++ [None]) (S (remaining ag))
                                        (capability ag)]> (aggs st)) st
        | None => st
        end in
      all_elements a (S i) ps' (subscribe p (RAllElement a i) st1)
  end.

(** [Promise.all(ps)]: the count starts at one, is incremented per element
    and decremented once after the loop, so that an empty input resolves the
    result inside the call. *)
Definition promise_all (ps : list pid) (st : rt) : pid * rt :=
  let '(r, st1) := alloc st in
  let a := next_agg st1 in
  let st2 := Rt (heap st1) (next st1) (<[a := AllRecord [] 1 r]> (aggs st1)) (S a)
                (jobs st1) (timers st1) (clock st1) (trace st1) in
  let st3 := all_elements a 0 ps st2 in
  (r, match aggs st3 !! a with
      | Some ag =>
          let n := pred (remaining ag) in
          let st4 := set_aggs (<[a := AllRecord (values ag) n (capability ag)]> (aggs st3)) st3 in
          if n is 0
          then settle r (Normal (VArr (from_option id VUndef <$> values ag))) st4
          else st4
      | None => st3
      end).

(** ** [async] functions *)

(** A call of one of the step functions: its own promise, the inner timer
    promise and the suspension at [await]. The call takes no argument. *)
Definition call_step (s : step_fn) (st : rt) : pid * rt :=
  let '(self, st1) := alloc st in
  let '(q, st2) := alloc st1 in
  let st3 := setTimeout (CbResolve q VUndef) (delay s) st2 in
  (self, subscribe q (RAwait (FStep self (body_end s))) st3).

(** [runSequential] from its [k]-th [await] on: call the next step and
    suspend on its promise, or return when no step is left. *)
Definition chain (self : pid) (k : nat) (steps : list step_fn) (st : rt) : rt :=
  match steps with
  | [] => settle self (Normal VUndef) st
  | s :: rest =>
      let '(p, st1) := call_step s st in
      subscribe p (RAwait (FChain self k rest)) (emit [EvInvoke k p] st1)
  end.

(** Resumption of a suspended activation with the outcome of the promise it
    awaited. A rejection is thrown at the [await]; no body catches it. *)
Definition resume (f : frame) (c : completion) (st : rt) : rt :=
  match f, c with
  | FStep self b, Normal _ => settle self b st
  | FStep self _, Throw e => settle self (Throw e) st
  | FChain self k rest, Normal v => chain self (S k) rest (emit [EvLog v] st)
  | FChain self _ _, Throw e => settle self (Throw e) st
  end.

(** ** Jobs, timers and the event loop *)

(** The call of a [then] handler; what it returns or throws settles the
    promise [then] derived. *)
Definition call_handler (h : handler) (arg : val) (d : pid) (st : rt) : rt :=
  let '(out, c) := hbody h arg in
  settle d c (emit (EvCall (hname h) arg :: map EvLog out) st).

(** A promise reaction job. A missing handler passes the outcome on to the
    derived promise; a rejected element of [Promise.all] rejects its result. *)
Definition run_job (j : reaction * completion) (st : rt) : rt :=
  match j with
  | (RThen onF onR d, Normal v) =>
      match onF with
      | Some h => call_handler h v d st
      | None => settle d (Normal v) st
      end
  | (RThen onF onR d, Throw e) =>
      match onR with
      | Some h => call_handler h e d st
      | None => settle d (Throw e) st
      end
  | (RAllElement a i, Normal v) => resolve_element a i v st
  | (RAllElement a i, Throw e) =>
      match aggs st !! a with
      | Some ag => settle (capability ag) (Throw e) st
      | None => st
      end
  | (RAwait f, c) => resume f c st
  end.

(** level90, line 13. *)
Definition students : list string := ["nika"; "nika"; "gio"; "alexi"]%string.

(** [Math.floor(Math.random() * students.length)], for [Math.random() = r]. *)
Definition randomIndex (r : Q) : Z :=
  Qfloor (r * inject_Z (Z.of_nat (length students))).

(** [l[i]]: [undefined] outside the array. *)
Definition element (l : list string) (i : Z) : option string :=
  if (i <? 0)%Z then None else l !! Z.to_nat i.

(** The body of the timer callback of level90. The [.length] of [undefined]
    throws; the exception escapes the callback and settles nothing. *)
Definition students_callback (p : pid) (r : Q) (st : rt) : rt :=
  match element students (randomIndex r) with
  | Some randomName =>
      if 5 <? String.length randomName
      then settle p (Normal (VStr "success")) st
      else settle p (Throw (VStr "failure")) st
  | None => st
  end.

(** The body of a timer callback. *)
Definition run_callback (c : callback) (st : rt) : rt :=
  match c with
  | CbResolve p v => settle p (Normal v) st
  | CbReject p e => settle p (Throw e) st
  | CbStudents p r => students_callback p r st
  end.

(** The timer that fires next: the earliest one, and among equally early
    ones the one registered first. *)
Fixpoint pick_timer (ts : list timer) : option (timer * list timer) :=
  match ts with
  | [] => None
  | t :: ts' =>
      match pick_timer ts' with
      | None => Some (t, [])
      | Some (u, rest) =>
          if fire_at t <=? fire_at u then Some (t, ts') else Some (u, t :: rest)
      end
  end.

(** One turn of the event loop: the oldest queued job if there is one,
    otherwise the next timer. [None] when nothing is left to run. *)
Definition step (st : rt) : option rt :=
  match jobs st with
  | j :: js => Some (run_job j (set_jobs js st))
  | [] =>
      match pick_timer (timers st) with
      | Some (t, rest) =>
          Some (run_callback (cb t)
                  (Rt (heap st) (next st) (aggs st) (next_agg st) [] rest
                      (Nat.max (clock st) (fire_at t)) (trace st)))
      | None => None
      end
  end.

(** Nothing is left to run. *)
Definition quiescent (st : rt) : Prop := jobs st = [] ∧ timers st = [].

(** At most [n] turns of the event loop; it stops early when nothing is left
    to run. *)
Fixpoint run (n : nat) (st : rt) : rt :=
  match n with
  | 0 => st
  | S n' => match step st with Some st' => run n' st' | None => st end
  end.

(** What [console.log] printed. *)
Definition console (st : rt) : list val :=
  omap (fun e => match e with EvLog v => Some v | _ => None end) (trace st).

(** The steps invoked, in order of invocation. *)
Definition invoked (st : rt) : list nat :=
  omap (fun e => match e with EvInvoke k _ => Some k | _ => None end) (trace st).

(** How promise [p] ended, if it exists and has settled. *)
Definition outcome_of (p : pid) (st : rt) : option completion :=
  heap st !! p ≫= outcome.

(** ** The programs *)

(** level92, lines 1-7, for any list of timed inputs: one
    [new Promise(... setTimeout(() => resolve(v) or reject(e), ms))] per
    element, then [Promise.all([...]).then(results => console.log(results))]. *)
Definition log_results : handler :=
  Handler "results => console.log(results)" (fun results => ([results], Normal VUndef)).

(** The timer callback of an input: [() => resolve(v)] or [() => reject(e)]. *)
Definition cb_of (p : pid) (c : completion) : callback :=
  match c with
  | Normal v => CbResolve p v
  | Throw e => CbReject p e
  end.

(** The inputs, created in input order, each with its timer. *)
Fixpoint make_inputs (ins : list (nat * completion)) (st : rt) : list pid * rt :=
  match ins with
  | [] => ([], st)
  | (ms, c) :: ins' =>
      let '(p, st1) := alloc st in
      let st2 := setTimeout (cb_of p c) ms st1 in
      let '(ps, st3) := make_inputs ins' st2 in
      (p :: ps, st3)
  end.

(** The inputs, the call of [Promise.all] on them and the [then] on its
    result. *)
Definition parallel (ins : list (nat * completion)) (st : rt) : pid * rt :=
  let '(ps, st1) := make_inputs ins st in
  let '(r, st2) := promise_all ps st1 in
  let '(_, st3) := promise_then r (Some log_results) None st2 in
  (r, st3).

(** The same, as a script of its own. *)
Definition parallel_program (ins : list (nat * completion)) : pid * rt :=
  parallel ins init.

(** [p1], [p2], [p3]. *)
Definition level92_inputs : list (nat * completion) :=
  [(1000, Normal (VStr "First")); (2000, Normal (VStr "Second"));
   (1500, Normal (VStr "Third"))].

(** level92, lines 10-34, for any list of steps: [runSequential()]. *)
Definition runSequential (steps : list step_fn) (st : rt) : pid * rt :=
  let '(self, st1) := alloc st in
  (self, chain self 0 steps st1).

(** [first], [second], [third]. *)
Definition level92_steps : list step_fn :=
  [StepFn 1000 (Normal (VStr "First")); StepFn 2000 (Normal (VStr "Second"));
   StepFn 1500 (Normal (VStr "Third"))].

(** level92, the whole file: both parts run in one script. *)
Definition level92 : rt :=
  snd (runSequential level92_steps (snd (parallel level92_inputs init))).

(** level90: [MyPromise], for the number [r] drawn by [Math.random()]. *)
Definition MyPromise (r : Q) (st : rt) : pid * rt :=
  let '(p, st1) := alloc st in
  (p, setTimeout (CbStudents p r) 5000 st1).

(** level91, lines 18-31: [chainPromise] and its three [then]s. The chain
    passes the numbers 5, 10 and 20 to them; on numbers (below 2^53, where
    sums and products of doubles are exact) [num + 5] and [num * 2] are the
    sum and the product. What [+] and [*] make of an argument that is not a
    number is not part of the exercise and not modelled: the properties
    proved of [then] hold for every handler, and these three are used at
    the values of the source only. *)
Definition add5 : handler :=
  Handler "num => num + 5"
    (fun num => ([], Normal (match num with VNum n => VNum (n + 5) | _ => VUndef end))).
Definition times2 : handler :=
  Handler "num => num * 2"
    (fun num => ([], Normal (match num with VNum n => VNum (n * 2) | _ => VUndef end))).
Definition log_num : handler :=
  Handler "num => console.log(num)" (fun num => ([num], Normal VUndef)).

(** level91, lines 1-15: [myPromise] with [then] and [catch]. *)
Definition log_result : handler :=
  Handler "result => console.log(result)" (fun result => ([result], Normal VUndef)).
Definition log_error : handler :=
  Handler "error => console.log(error)" (fun error => ([error], Normal VUndef)).

(** [.catch(f)] is [.then(undefined, f)]. *)
Definition myPromise (st : rt) : pid * rt :=
  let '(p, st1) := alloc st in
  let st2 := setTimeout (CbResolve p (VStr "Data loaded successfully!")) 1000 st1 in
  let '(d, st3) := promise_then p (Some log_result) None st2 in
  let '(_, st4) := promise_then d None (Some log_error) st3 in
  (p, st4).

(** The executor resolves with [5] before any [then] is registered. *)
Definition chainPromise (st : rt) : pid * rt :=
  let '(p, st1) := alloc st in
  let st2 := settle p (Normal (VNum 5)) st1 in
  let '(d1, st3) := promise_then p (Some add5) None st2 in
  let '(d2, st4) := promise_then d1 (Some times2) None st3 in
  let '(_, st5) := promise_then d2 (Some log_num) None st4 in
  (p, st5).

(** level91, lines 33-52: [conditionalPromise] and its two-handler [then]. *)
Definition conditionalPromise (st : rt) : pid * rt :=
  let '(p, st1) := alloc st in
  let success := true in
  let st2 := if success
             then settle p (Normal (VStr "Operation successful!")) st1
             else settle p (Throw (VStr "Operation failed!")) st1 in
  let '(_, st3) := promise_then p (Some log_result) (Some log_error) st2 in
  (p, st3).

(** level91, the whole file. *)
Definition level91 : rt :=
  snd (conditionalPromise (snd (chainPromise (snd (myPromise init))))).

(** ** The points counter of [project/js2.js] *)

Module Points.

(** What is stored in a property of a page element. *)
Inductive prop :=
| PNum (n : Z)
| PText (s : string).

(** The global [points] and the elements [document.getElementById] finds,
    each a table of properties. *)
Record world := World {
  points : Z;
  document : gmap string (gmap string prop)
}.

(** A call ends by returning or by an uncaught [TypeError]; either way it
    leaves a world behind. *)
Inductive result :=
| Returned (w : world)
| Threw (w : world).

(** The world a call leaves behind. *)
Definition after (r : result) : world :=
  match r with Returned w | Threw w => w end.

(** [document.getElementById(id).name = v]: assigning a property of
    [null] throws. *)
Definition set_property (id name : string) (v : prop) (w : world) : result :=
  match document w !! id with
  | Some el => Returned (World (points w) (<[id := <[name := v]> el]> (document w)))
  | None => Threw w
  end.

(** The largest count [points++] can reach: [points] is a double, every
    integer up to 2^53 is one, and 2^53 + 1 is not. *)
Definition max_count : Z := 2 ^ 53.

(** [n + 1] on the double [n]: exact below 2^53; at 2^53 the sum falls
    half-way between two doubles and rounds (to the even one) back to
    2^53. Starting from [let points = 0] the functions of the file keep
    [points] between 0 and 2^53. *)
Definition increment (n : Z) : Z :=
  if (n =? max_count)%Z then n else (n + 1)%Z.

Section Display.
(** The property written by [updatePointsDisplay]: [innerText] in the
    first copy of the file, [Text] in the second. *)
Variable display_property : string.

(** [document.getElementById("pointsDisplay").innerText = points]. *)
Definition updatePointsDisplay (w : world) : result :=
  set_property "pointsDisplay" display_property (PNum (points w)) w.

(** [points++] and the display update. *)
Definition addPoint (w : world) : result :=
  updatePointsDisplay (World (increment (points w)) (document w)).

(** [points + 100] is an expression statement: evaluated, not stored. *)
Definition add100 (w : world) : result :=
  let _ := (points w + 100)%Z in
  updatePointsDisplay w.
End Display.

End Points.

(** ** The shop of [project/js2.js]: [buySword] and [spawnMob] *)

Module Shop.

(** An element made by [document.createElement]: its tag, its text and its
    inline style. *)
Record node := Node {
  tag : string;
  innerText : string;
  style : gmap string string
}.

(** The page: the world of [Points] and the children of [document.body]. *)
Record page := Page {
  world : Points.world;
  body : list node
}.

(** A call ends by returning or by an uncaught [TypeError]; either way it
    leaves a page behind. *)
Inductive result :=
| Returned (pg : page)
| Threw (pg : page).

(** The page a call leaves behind. *)
Definition after (r : result) : page :=
  match r with Returned pg | Threw pg => pg end.

(** A function of [Points], run on the page. *)
Definition on_world (r : Points.result) (pg : page) : result :=
  match r with
  | Points.Returned w => Returned (Page w (body pg))
  | Points.Threw w => Threw (Page w (body pg))
  end.

(** [spawnMob()]: a [div] with its text and two style properties, appended
    to the body. *)
Definition spawnMob (pg : page) : page :=
  let bug := Node "div" "" ∅ in
  let bug := Node (tag bug) " Mob Spawned!" (style bug) in
  let bug := Node (tag bug) (innerText bug) (<["fontSize" := "24px"]> (style bug)) in
  let bug := Node (tag bug) (innerText bug) (<["marginTop" := "20px"]> (style bug)) in
  Page (world pg) (body pg ++ [bug]).

(** The functions of the file, as they are called from the page. *)
Inductive call :=
| CallAddPoint
| CallAdd100
| CallBuySword.

Section Display.
(** The property written on the display and on the message: [innerText] in
    the first copy of the file, [Text] in the second. *)
Variable display_property : string.

(** [buySword()]: with ten points or more, pay, update the display, set the
    message and spawn a mob; otherwise only set the message. An exception
    ends the call where it is raised. *)
Definition buySword (pg : page) : result :=
  let w := world pg in
  if (10 <=? Points.points w)%Z then
    let w1 := Points.World (Points.points w - 10) (Points.document w) in
    match Points.updatePointsDisplay display_property w1 with
    | Points.Threw w2 => Threw (Page w2 (body pg))
    | Points.Returned w2 =>
        match Points.set_property "message" display_property
                (Points.PText " Sword bought! Mobs will spawn!") w2 with
        | Points.Threw w3 => Threw (Page w3 (body pg))
        | Points.Returned w3 => Returned (spawnMob (Page w3 (body pg)))
        end
    end
  else
    on_world (Points.set_property "message" display_property
                (Points.PText " Not enough points!") w) pg.

(** One call. *)
Definition perform (c : call) (pg : page) : result :=
  match c with
  | CallAddPoint => on_world (Points.addPoint display_property (world pg)) pg
  | CallAdd100 => on_world (Points.add100 display_property (world pg)) pg
  | CallBuySword => buySword pg
  end.

(** A sequence of calls, each an event of its own: an exception ends the
    call that raised it, not the ones after it. *)
Definition play (cs : list call) (pg : page) : page :=
  foldl (fun pg c => after (perform c pg)) pg cs.
End Display.

(** The points earned by a sequence of calls: one per [addPoint]. *)
Definition earned (cs : list call) : Z :=
  foldr (fun c n => (match c with CallAddPoint => 1 | _ => 0 end + n)%Z) 0%Z cs.

(** The mobs on a page are the children of the body. *)
Definition mobs (pg : page) : nat := length (body pg).

(** The element with identifier [id] exists. *)
Definition has_element (id : string) (pg : page) : Prop :=
  is_Some (Points.document (world pg) !! id).

(** What the display shows, if it exists and has been written. *)
Definition shown (display_property : string) (pg : page) : option Points.prop :=
  Points.document (world pg) !! "pointsDisplay" ≫= fun el => el !! display_property.

End Shop.

(** ** Invariants of the promise heap *)

(** [value] and [error] are populated by settlement only, and never both. *)
Definition wf_promise (pr : promise) : Prop :=
  match state pr with
  | Pending => value pr = None ∧ error pr = None
  | Fulfilled => is_Some (value pr) ∧ error pr = None
  | Rejected => value pr = None ∧ is_Some (error pr)
  end.

Definition wf_rt (st : rt) : Prop :=
  ∀ p pr, heap st !! p = Some pr -> p < next st ∧ wf_promise pr.

(** [st'] is a later state of [st]: every promise settled in [st] is the
    same object in [st'], and the trace has only grown. *)
Definition extends (st st' : rt) : Prop :=
  next st <= next st'
  ∧ (∀ p pr, heap st !! p = Some pr -> state pr ≠ Pending -> heap st' !! p = Some pr)
  ∧ trace st `prefix_of` trace st'.

Definition keeps (st st' : rt) : Prop :=
  wf_rt st -> wf_rt st' ∧ extends st st'.

(** ** What a run of [runSequential] is expected to record *)

(** The events of the chain from step [k] on, when [nx] is the next free
    promise identifier: per step the call, the settlement of the timer
    promise, the settlement of the step's promise and, if it fulfilled, the
    log; a rejection ends the chain. *)
Fixpoint chain_trace (self : pid) (k : nat) (nx : pid) (steps : list step_fn) : list event :=
  match steps with
  | [] => [EvSettle self (Normal VUndef)]
  | s :: rest =>
      EvInvoke k nx :: EvSettle (S nx) (Normal VUndef) :: EvSettle nx (body_end s) ::
      match body_end s with
      | Normal v => EvLog v :: chain_trace self (S k) (S (S nx)) rest
      | Throw e => [EvSettle self (Throw e)]
      end
  end.

(** Turns of the event loop the chain takes: a timer and two jobs per step
    reached. *)
Fixpoint chain_turns (steps : list step_fn) : nat :=
  match steps with
  | [] => 0
  | s :: rest =>
      3 + match body_end s with Normal _ => chain_turns rest | Throw _ => 0 end
  end.

Fixpoint chain_outcome (steps : list step_fn) : completion :=
  match steps with
  | [] => Normal VUndef
  | s :: rest =>
      match body_end s with Normal _ => chain_outcome rest | Throw e => Throw e end
  end.

(** In a trace, every call of a step after the first comes after the call
    of the step before it and after the settlement of the promise that call
    returned. *)
Definition ordered (tr : list event) : Prop :=
  ∀ t1 t2 k p, tr = t1 ++ EvInvoke (S k) p :: t2 ->
    ∃ q c, EvInvoke k q ∈ t1 ∧ EvSettle q c ∈ t1.

(** A step whose body ends by returning. *)
Definition fulfils (s : step_fn) : Prop := ∃ v, body_end s = Normal v.


(** ** The state of a run of [Promise.all] over timed inputs *)

(** The inputs with their promise identifiers, from identifier [b] on. *)
Fixpoint entries (b : pid) (ins : list (nat * completion))
    : list (pid * (nat * completion)) :=
  match ins with
  | [] => []
  | x :: ins' => (b, x) :: entries (S b) ins'
  end.

(** The timer an input registers at time [0]. *)
Definition timer_of (x : pid * (nat * completion)) : timer :=
  Timer (x.2.1) (cb_of x.1 x.2.2).

(** The state of the program of level92, lines 1-7, while the inputs [ents]
    have not settled yet and all the others have fulfilled: the result
    promise [length ins] is pending, the promise derived by [then] is
    [S (length ins)], and nothing has been printed. *)
Record par_inv (ins : list (nat * completion))
    (ents : list (pid * (nat * completion))) (st : rt) : Prop := ParInv {
  pi_jobs : jobs st = [];
  pi_timers : timers st = timer_of <$> ents;
  pi_sorted : StronglySorted (fun a b => a.1 < b.1) ents;
  pi_ents : ∀ x, x ∈ ents -> ins !! x.1 = Some x.2;
  pi_agg : ∃ vals,
    aggs st !! 0 = Some (AllRecord vals (length ents) (length ins))
    ∧ length vals = length ins
    ∧ (∀ x, x ∈ ents -> vals !! x.1 = Some None)
    ∧ (∀ i d c, ins !! i = Some (d, c) -> (i, (d, c)) ∉ ents ->
         ∃ v, c = Normal v ∧ vals !! i = Some (Some v));
  pi_pending : ∀ x, x ∈ ents ->
    heap st !! x.1 = Some (Promise Pending None None [RAllElement 0 x.1]);
  pi_result :
    heap st !! length ins
    = Some (Promise Pending None None
              [RThen (Some log_results) None (S (length ins))]);
  pi_derived : heap st !! S (length ins) = Some fresh_promise;
  pi_console : console st = []
}.

(** The values of a list of inputs that all fulfil. *)
Definition input_values (ins : list (nat * completion)) : list val :=
  omap (fun x => match x.2 with Normal v => Some v | Throw _ => None end) ins.

(** ** The [then] patterns of level91, for any handlers *)

(** The calls of handlers recorded in a trace. *)
Definition calls (tr : list event) : list (string * val) :=
  omap (fun e => match e with EvCall h arg => Some (h, arg) | _ => None end) tr.

(** What a [then] reaction does with the outcome [c] of its promise: the
    events of the handler chosen by [c] and what it ends with, or [c] itself
    when that handler is missing. *)
Definition then_result (onF onR : option handler) (c : completion)
    : list event * completion :=
  match match c with Normal _ => onF | Throw _ => onR end with
  | Some h =>
      let arg := match c with Normal v => v | Throw e => e end in
      (EvCall (hname h) arg :: map EvLog (fst (hbody h arg)), snd (hbody h arg))
  | None => ([], c)
  end.

(** level91, lines 1-15, for any delay, any outcome of the timer callback
    and any two handlers: [p.then(f).catch(g)]. *)
Definition then_catch (ms : nat) (c : completion) (f g : handler) (st : rt)
    : pid * rt :=
  let '(p, st1) := alloc st in
  let st2 := setTimeout (cb_of p c) ms st1 in
  let '(d, st3) := promise_then p (Some f) None st2 in
  let '(_, st4) := promise_then d None (Some g) st3 in
  (p, st4).

(** [p.then(h1).then(h2)...]: each [then] is registered on the promise the
    one before it derived. The last derived promise is returned. *)
Fixpoint thens (p : pid) (hs : list handler) (st : rt) : pid * rt :=
  match hs with
  | [] => (p, st)
  | h :: hs' =>
      let '(d, st1) := promise_then p (Some h) None st in
      thens d hs' st1
  end.

(** level91, lines 18-31, for any value and any handlers: a promise resolved
    in its executor, followed by a chain of [then]s. *)
Definition resolved_then_chain (v : val) (hs : list handler) (st : rt) : pid * rt :=
  let '(p, st1) := alloc st in
  thens p hs (settle p (Normal v) st1).

(** What a chain of [then]s records and ends with, when the first of them
    derives promise [d] and its promise ended with [c]: each handler gets
    what the one before it returned; a thrown error skips the handlers after
    it. *)
Fixpoint thread (d : pid) (hs : list handler) (c : completion)
    : list event * completion :=
  match hs with
  | [] => ([], c)
  | h :: hs' =>
      let '(ev, c') := then_result (Some h) None c in
      let '(evs, c'') := thread (S d) hs' c' in
      (ev ++ EvSettle d c' :: evs, c'')
  end.

(** The promises derived by a chain of [then]s, from [d] on, while none of
    them has settled: each holds the reaction of the next [then]. *)
Fixpoint linked (h : gmap nat promise) (d : pid) (hs : list handler) : Prop :=
  match hs with
  | [] => h !! d = Some fresh_promise
  | h1 :: hs' =>
      h !! d = Some (Promise Pending None None [RThen (Some h1) None (S d)])
      ∧ linked h (S d) hs'
  end.

(** ** Times *)

(** The time the chain of level92 takes: the delays of the steps it reaches,
    one after the other. *)
Fixpoint chain_time (steps : list step_fn) : nat :=
  match steps with
  | [] => 0
  | s :: rest =>
      delay s + match body_end s with Normal _ => chain_time rest | Throw _ => 0 end
  end.

(** The latest of the delays of a list of inputs. *)
Definition latest (ents : list (pid * (nat * completion))) : nat :=
  foldr (fun x m => Nat.max (x.2.1) m) 0 ents.

(** The delay of the slowest input of [Promise.all]. *)
Definition slowest (ins : list (nat * completion)) : nat :=
  foldr (fun x m => Nat.max (x.1) m) 0 ins.

(** ** What a state can still settle *)

(** The promises a reaction settles when it runs: the promise derived by a
    [then], the promise of a suspended [async] activation. An element
    reaction of [Promise.all] settles the promise of its call, which the
    call's record holds. *)
Definition reaction_targets (r : reaction) : list pid :=
  match r with
  | RThen _ _ d => [d]
  | RAllElement _ _ => []
  | RAwait (FStep self _) => [self]
  | RAwait (FChain self _ _) => [self]
  end.

(** The promise a timer callback settles. *)
Definition callback_target (c : callback) : pid :=
  match c with
  | CbResolve p _ => p
  | CbReject p _ => p
  | CbStudents p _ => p
  end.

(** Promise [q] is held: a reaction stored on a promise, a timer or a
    [Promise.all] record will settle it. *)
Definition held (q : pid) (st : rt) : Prop :=
  (∃ p pr r, heap st !! p = Some pr ∧ r ∈ reactions pr ∧ q ∈ reaction_targets r)
  ∨ (∃ t, t ∈ timers st ∧ callback_target (cb t) = q)
  ∨ (∃ a ag, aggs st !! a = Some ag ∧ capability ag = q).

(** The queued jobs that settle [q]. *)
Definition jobs_for (q : pid) (st : rt) : list (reaction * completion) :=
  filter (fun j => q ∈ reaction_targets j.1) (jobs st).

(** Only promises that exist can be settled: nothing in the state refers to
    a promise that has not been created yet. *)
Definition closed (st : rt) : Prop :=
  ∀ q, next st <= q -> ¬ held q st ∧ jobs_for q st = [].

(** From [st] to [st'] nothing was done to [q] or for [q], provided [q] is
    not a promise created in between and is not held in [st]: it is not
    held in [st'], it is the same object, and the jobs queued in between do
    not settle it. *)
Definition undisturbed (q : pid) (st st' : rt) : Prop :=
  next st <= next st'
  ∧ (q < next st ∨ next st' <= q -> ¬ held q st ->
       ¬ held q st'
       ∧ heap st' !! q = heap st !! q
       ∧ ∃ new, jobs st' = jobs st ++ new
                ∧ filter (fun j => q ∈ reaction_targets j.1) new = []).

(** A state a script can be in: the heap is well formed and nothing refers
    to a promise that does not exist. It holds when a script starts and
    every operation of the runtime keeps it. *)
Definition sound (st : rt) : Prop := wf_rt st ∧ closed st.

(** level91 at line 43: [myPromise] and [chainPromise] are set up, the
    executor of [conditionalPromise] has resolved it, and the first [then]
    job of [chainPromise] is queued. *)
Definition level91_settled : rt :=
  let '(p, st1) := alloc (snd (chainPromise (snd (myPromise init)))) in
  settle p (Normal (VStr "Operation successful!")) st1.

(** ** Settlement order *)



(** * Properties *)

(** ** The event loop *)

Lemma run_quiescent n st : step st = None -> run n st = st.
Proof. intros H. destruct n; simpl; [done | by rewrite H]. Qed.

Lemma run_step n st st' : step st = Some st' -> run (S n) st = run n st'.
Proof. intros H. simpl. by rewrite H. Qed.

Lemma run_add n m st : run (n + m) st = run m (run n st).
Proof.
  revert st. induction n as [|n IH]; intros st; simpl; [done |].
  destruct (step st) as [st'|] eqn:E; [apply IH |].
  symmetry. by apply run_quiescent.
Qed.

Lemma step_None_quiescent st : step st = None <-> quiescent st.
Proof.
  unfold step, quiescent. destruct (jobs st) as [|j js]; [| split; [done | intros [? _]; done]].
  destruct (timers st) as [|t ts]; simpl; [tauto |].
  split; [| intros [_ ?]; done].
  destruct (pick_timer ts) as [[u rest]|]; [destruct (fire_at t <=? fire_at u) |]; done.
Qed.

(** [pick_timer] takes one timer out: the timers registered before it are
    due strictly later, those registered after it not earlier. *)
Lemma pick_timer_spec ts t rest :
  pick_timer ts = Some (t, rest) ->
  ∃ l1 l2, ts = l1 ++ t :: l2 ∧ rest = l1 ++ l2
    ∧ Forall (fun x => fire_at t < fire_at x) l1
    ∧ Forall (fun x => fire_at t <= fire_at x) l2.
Proof.
  revert t rest. induction ts as [|x ts IH]; intros t rest; simpl; [done |].
  destruct (pick_timer ts) as [[u r]|] eqn:E.
  - destruct (IH u r eq_refl) as (l1 & l2 & -> & -> & H1 & H2).
    destruct (fire_at x <=? fire_at u) eqn:Hle; intros [= <- <-].
    + apply Nat.leb_le in Hle. exists [], (l1 ++ u :: l2). repeat split; [constructor |].
      apply Forall_app. split.
      * eapply Forall_impl; [exact H1 |]. simpl. intros; lia.
      * constructor; [done |]. eapply Forall_impl; [exact H2 |]. simpl. intros; lia.
    + apply Nat.leb_gt in Hle. exists (x :: l1), l2. repeat split; [| done].
      by constructor.
  - intros [= <- <-]. destruct ts as [|y ts]; [| simpl in E].
    + exists [], []. repeat split; constructor.
    + destruct (pick_timer ts) as [[u r]|]; [destruct (fire_at y <=? fire_at u) |]; done.
Qed.

Lemma pick_timer_is_Some ts : ts ≠ [] -> is_Some (pick_timer ts).
Proof.
  destruct ts as [|x ts]; [done |]. intros _. simpl.
  destruct (pick_timer ts) as [[u r]|]; [destruct (fire_at x <=? fire_at u) |]; eauto.
Qed.

Lemma step_timer st t rest :
  jobs st = [] -> pick_timer (timers st) = Some (t, rest) ->
  step st = Some (run_callback (cb t)
                    (Rt (heap st) (next st) (aggs st) (next_agg st) [] rest
                        (Nat.max (clock st) (fire_at t)) (trace st))).
Proof. intros Hj Hp. unfold step. by rewrite Hj, Hp. Qed.

Lemma step_job st j js :
  jobs st = j :: js -> step st = Some (run_job j (set_jobs js st)).
Proof. intros Hj. unfold step. by rewrite Hj. Qed.

(** ** Settled promises are terminal *)

(** Every operation of the runtime keeps the heap well formed, leaves the
    settled promises as they are and only appends to the trace. *)
Lemma keeps_refl st : keeps st st.
Proof. intros H. split; [done |]. split; [lia | split; [auto | done]]. Qed.

Lemma keeps_trans st1 st2 st3 : keeps st1 st2 -> keeps st2 st3 -> keeps st1 st3.
Proof.
  intros H12 H23 H1. destruct (H12 H1) as [H2 (Hn12 & He12 & Ht12)].
  destruct (H23 H2) as [H3 (Hn23 & He23 & Ht23)].
  split; [done |]. split; [lia |]. split; [eauto | by etrans].
Qed.

Lemma keeps_same_heap st st' :
  heap st' = heap st -> next st' = next st -> trace st `prefix_of` trace st' ->
  keeps st st'.
Proof.
  intros Hh Hn Ht Hwf. split.
  - intros p pr. rewrite Hh, Hn. apply Hwf.
  - split; [lia |]. split; [| done]. intros p pr. by rewrite Hh.
Qed.

Ltac same_heap :=
  apply keeps_same_heap; simpl; [done | done | first [done | by eexists]].

Lemma wf_settle_promise c pr :
  wf_promise pr -> wf_promise (settle_promise c pr).
Proof.
  unfold settle_promise. destruct (state pr) eqn:E; [| done | done].
  intros _. destruct c; unfold wf_promise; simpl; eauto.
Qed.

Lemma keeps_settle p c st : keeps st (settle p c st).
Proof.
  unfold settle. destruct (heap st !! p) as [pr|] eqn:Hp; [| apply keeps_refl].
  destruct (state pr) eqn:Hs; try apply keeps_refl.
  intros Hwf. split.
  - intros q qr. simpl. destruct (decide (q = p)) as [->|Hne].
    + rewrite lookup_insert_eq. intros [= <-]. destruct (Hwf _ _ Hp) as [Hlt Hw].
      split; [done | by apply wf_settle_promise].
    + rewrite lookup_insert_ne by done. apply Hwf.
  - split; [simpl; lia |]. split; [| by eexists]. intros q qr Hq Hq'. simpl.
    rewrite lookup_insert_ne; [done |]. intros ->. congruence.
Qed.

Lemma keeps_subscribe p r st : keeps st (subscribe p r st).
Proof.
  unfold subscribe. destruct (heap st !! p) as [pr|] eqn:Hp; [| apply keeps_refl].
  destruct (outcome pr) as [c|] eqn:Ho; [same_heap |].
  intros Hwf. split.
  - intros q qr. simpl. destruct (decide (q = p)) as [->|Hne].
    + rewrite lookup_insert_eq. intros [= <-]. destruct (Hwf _ _ Hp) as [Hlt Hw].
      split; [done |]. revert Hw. unfold wf_promise. simpl. done.
    + rewrite lookup_insert_ne by done. apply Hwf.
  - split; [simpl; lia |]. split; [| done]. intros q qr Hq Hq'. simpl.
    rewrite lookup_insert_ne; [done |]. intros ->.
    assert (pr = qr) as -> by congruence.
    destruct (Hwf _ _ Hp) as [_ Hw]. revert Ho Hw Hq'. unfold outcome, wf_promise.
    destruct (state qr); [done | |]; intros Ho [Hv He].
    + destruct Hv as [v Hv]. by rewrite Hv in Ho.
    + destruct He as [e He]. by rewrite He in Ho.
Qed.

Lemma keeps_alloc st : keeps st (snd (alloc st)).
Proof.
  intros Hwf. simpl. split.
  - intros q qr. simpl. destruct (decide (q = next st)) as [->|Hne].
    + rewrite lookup_insert_eq. intros [= <-]. split; [lia | done].
    + rewrite lookup_insert_ne by done. intros Hq. destruct (Hwf _ _ Hq). split; [lia | done].
  - split; [simpl; lia |]. split; [| done]. intros q qr Hq _. simpl.
    rewrite lookup_insert_ne; [done |]. intros <-. destruct (Hwf _ _ Hq). lia.
Qed.

Lemma keeps_resolve_element a i x st : keeps st (resolve_element a i x st).
Proof.
  unfold resolve_element. destruct (aggs st !! a) as [ag|]; [| apply keeps_refl].
  destruct (values ag !! i) as [[?|]|]; try apply keeps_refl.
  simpl. destruct (pred (remaining ag)).
  - eapply keeps_trans; [| apply keeps_settle]. same_heap.
  - same_heap.
Qed.

Lemma keeps_call_step s st : keeps st (snd (call_step s st)).
Proof.
  unfold call_step.
  eapply keeps_trans; [apply (keeps_alloc st) |].
  eapply keeps_trans; [apply (keeps_alloc (snd (alloc st))) |].
  simpl. eapply keeps_trans; [| apply keeps_subscribe].
  same_heap.
Qed.

Lemma keeps_chain self k steps st : keeps st (chain self k steps st).
Proof.
  destruct steps as [|s rest]; simpl; [apply keeps_settle |].
  eapply keeps_trans; [apply (keeps_call_step s st) |].
  unfold call_step. simpl. eapply keeps_trans; [| apply keeps_subscribe].
  same_heap.
Qed.

Lemma keeps_resume f c st : keeps st (resume f c st).
Proof.
  destruct f, c; simpl; try apply keeps_settle.
  eapply keeps_trans; [| apply keeps_chain]. same_heap.
Qed.

Lemma keeps_call_handler h arg d st : keeps st (call_handler h arg d st).
Proof.
  unfold call_handler. destruct (hbody h arg) as [out c].
  eapply keeps_trans; [| apply keeps_settle]. same_heap.
Qed.

Lemma keeps_run_job j st : keeps st (run_job j st).
Proof.
  destruct j as [[onF onR d | a i | f] c]; simpl.
  - destruct c, onF, onR; auto using keeps_call_handler, keeps_settle.
  - destruct c; [apply keeps_resolve_element |].
    destruct (aggs st !! a); [apply keeps_settle | apply keeps_refl].
  - apply keeps_resume.
Qed.

Lemma keeps_run_callback c st : keeps st (run_callback c st).
Proof.
  destruct c; simpl; try apply keeps_settle.
  unfold students_callback. destruct (element _ _); [| apply keeps_refl].
  destruct (5 <? _); apply keeps_settle.
Qed.

Lemma keeps_step st st' : step st = Some st' -> keeps st st'.
Proof.
  unfold step. destruct (jobs st) as [|j js].
  - destruct (pick_timer (timers st)) as [[t rest]|]; [| done].
    intros [= <-]. eapply keeps_trans; [| apply keeps_run_callback].
    same_heap.
  - intros [= <-]. eapply keeps_trans; [| apply keeps_run_job].
    same_heap.
Qed.

Lemma keeps_run n st : keeps st (run n st).
Proof.
  revert st. induction n as [|n IH]; intros st; simpl; [apply keeps_refl |].
  destruct (step st) as [st'|] eqn:E; [| apply keeps_refl].
  eapply keeps_trans; [by apply keeps_step | apply IH].
Qed.

Lemma wf_init : wf_rt init.
Proof. intros p pr. unfold init. simpl. by rewrite lookup_empty. Qed.

Lemma extends_outcome st st' p c :
  extends st st' -> outcome_of p st = Some c -> outcome_of p st' = Some c.
Proof.
  intros (_ & He & _). unfold outcome_of. destruct (heap st !! p) as [pr|] eqn:Hp; [| done].
  simpl. intros Ho. rewrite (He p pr Hp); [done |].
  intros Hs. unfold outcome in Ho. by rewrite Hs in Ho.
Qed.

Lemma keeps_settle_many p cs st :
  keeps st (foldl (fun s c => settle p c s) st cs).
Proof.
  revert st. induction cs as [|c cs IH]; intros st; simpl; [apply keeps_refl |].
  eapply keeps_trans; [apply keeps_settle | apply IH].
Qed.

(** C5: a promise transitions exactly once, from pending to fulfilled or
    rejected. While pending it has neither value nor error; the first call of
    a resolving function settles it with that call's outcome; after that no
    further call of a resolving function and no turn of the event loop
    changes the promise object, and in every state reached the value and the
    error of every promise are mutually exclusive and present only when the
    promise is settled. *)
Theorem promise_settles_exactly_once
    (st : rt) (p : pid) (pr : promise) (c : completion)
    (cs : list completion) (n : nat) :
  wf_rt st -> heap st !! p = Some pr -> state pr = Pending ->
  let st' := run n (foldl (fun s c' => settle p c' s) (settle p c st) cs) in
  (value pr = None ∧ error pr = None ∧ outcome_of p st = None)
  ∧ outcome_of p (settle p c st) = Some c
  ∧ heap st' !! p = Some (settle_promise c pr)
  ∧ outcome_of p st' = Some c
  ∧ wf_rt st'.
Proof.
  intros Hwf Hp Hs st'.
  assert (H1 : heap (settle p c st) !! p = Some (settle_promise c pr)).
  { unfold settle. rewrite Hp, Hs. simpl. apply lookup_insert_eq. }
  assert (Hns : state (settle_promise c pr) ≠ Pending).
  { unfold settle_promise. rewrite Hs. by destruct c. }
  assert (Ho : outcome (settle_promise c pr) = Some c).
  { unfold settle_promise. rewrite Hs. by destruct c. }
  destruct (keeps_settle p c st Hwf) as [Hwf1 _].
  assert (Hk : keeps (settle p c st) st').
  { eapply keeps_trans; [apply keeps_settle_many | apply keeps_run]. }
  destruct (Hk Hwf1) as [Hwf' (_ & He & _)].
  split.
  { destruct (Hwf _ _ Hp) as [_ Hw]. unfold wf_promise in Hw. rewrite Hs in Hw.
    destruct Hw as [Hv Hr]. repeat split; [done | done |].
    unfold outcome_of. rewrite Hp. simpl. unfold outcome. by rewrite Hs. }
  split; [unfold outcome_of; by rewrite H1 |].
  split; [by apply He |].
  split; [| done].
  unfold outcome_of. by rewrite (He _ _ H1 Hns).
Qed.

Lemma promise_settles_exactly_once_witness :
  let st := snd (alloc init) in
  let st' := run 3 (foldl (fun s c' => settle 0 c' s)
                      (settle 0 (Normal (VNum 1)) st) [Throw (VStr "late"); Normal VUndef]) in
  outcome_of 0 st' = Some (Normal (VNum 1)).
Proof.
  intros st st'.
  refine (proj1 (proj2 (proj2 (proj2
    (promise_settles_exactly_once st 0 fresh_promise (Normal (VNum 1))
       [Throw (VStr "late"); Normal VUndef] 3 _ _ _))))).
  - exact (proj1 (keeps_alloc init wf_init)).
  - reflexivity.
  - reflexivity.
Defined.

Lemma keeps_make_inputs ins : ∀ st, keeps st (snd (make_inputs ins st)).
Proof.
  induction ins as [|[ms c] ins IH]; intros st; [apply keeps_refl |].
  simpl. pose proof (IH (setTimeout (cb_of (next st) c) ms (snd (alloc st)))) as Hk.
  unfold alloc in *. simpl in *.
  destruct (make_inputs ins _) as [ps st3]. simpl in *.
  eapply keeps_trans; [apply (keeps_alloc st) |].
  eapply keeps_trans; [| exact Hk]. same_heap.
Qed.

Lemma keeps_all_elements a ps : ∀ i st, keeps st (all_elements a i ps st).
Proof.
  induction ps as [|p ps IH]; intros i st; [apply keeps_refl |].
  simpl. eapply keeps_trans; [| apply IH].
  eapply keeps_trans; [| apply keeps_subscribe].
  destruct (aggs st !! a); [same_heap | apply keeps_refl].
Qed.

Lemma keeps_promise_all ps st : keeps st (snd (promise_all ps st)).
Proof.
  unfold promise_all. eapply keeps_trans; [apply (keeps_alloc st) |].
  unfold alloc. simpl.
  match goal with |- context [all_elements ?a ?i ?l ?s] =>
    pose proof (keeps_all_elements a l i s) as Hk;
    set (st3 := all_elements a i l s) in *
  end.
  eapply keeps_trans; [| eapply keeps_trans; [exact Hk |]]; [same_heap |].
  destruct (aggs st3 !! next_agg st) as [ag|]; [| apply keeps_refl].
  simpl. destruct (pred (remaining ag)).
  - eapply keeps_trans; [| apply keeps_settle]. same_heap.
  - same_heap.
Qed.

Lemma keeps_promise_then p onF onR st : keeps st (snd (promise_then p onF onR st)).
Proof.
  unfold promise_then. eapply keeps_trans; [apply (keeps_alloc st) |].
  unfold alloc. simpl. apply keeps_subscribe.
Qed.

(** The trace of a run is a prefix of the trace of any longer run. *)
Lemma trace_grows n m st :
  wf_rt st -> trace (run n st) `prefix_of` trace (run (n + m) st).
Proof.
  intros Hwf. rewrite run_add.
  destruct (keeps_run n st Hwf) as [Hwf' _].
  by destruct (keeps_run m (run n st) Hwf') as (_ & _ & _ & Hp).
Qed.

Local Arguments run : simpl never.
Local Arguments step : simpl never.

Ltac norm := unfold emit, set_jobs, set_heap, set_timers, set_aggs; simpl.
Ltac turn := erewrite run_step by (unfold step; simpl; reflexivity).
Ltac heap_lookup :=
  repeat first [rewrite lookup_insert_eq | rewrite lookup_insert_ne by lia].

(** ** level91, the whole file *)

(** level91, the whole file: the handlers of the two promises settled in
    their executors run first, in order of registration and of derivation,
    and the timer of [myPromise] last. *)
Lemma level91_console (n : nat) :
  console (run (7 + n) level91)
  = [VStr "Operation successful!"; VNum 20; VStr "Data loaded successfully!"]
  ∧ quiescent (run (7 + n) level91).
Proof.
  rewrite run_add. rewrite run_quiescent; [by split |].
  apply step_None_quiescent. split; reflexivity.
Qed.

(** level91, lines 18-31, run to the end: the three handlers run once each,
    in order, and [20] is printed. *)
Lemma chainPromise_trace (n : nat) :
  trace (run (3 + n) (snd (chainPromise init)))
  = [EvSettle 0 (Normal (VNum 5));
     EvCall "num => num + 5" (VNum 5); EvSettle 1 (Normal (VNum 10));
     EvCall "num => num * 2" (VNum 10); EvSettle 2 (Normal (VNum 20));
     EvCall "num => console.log(num)" (VNum 20); EvLog (VNum 20);
     EvSettle 3 (Normal VUndef)].
Proof.
  rewrite run_add. rewrite run_quiescent; [reflexivity |].
  apply step_None_quiescent. split; reflexivity.
Qed.

(** ** level90: the conditional promise *)

Lemma randomIndex_range (r : Q) :
  (0 <= r)%Q -> (r < 1)%Q -> (0 <= randomIndex r < 4)%Z.
Proof.
  destruct r as [a b]. unfold randomIndex, Qle, Qlt. simpl. intros H0 H1.
  rewrite Z.mul_1_r in H0, H1.
  split.
  - apply Z.div_pos; lia.
  - apply Z.div_lt_upper_bound; lia.
Qed.

Lemma students_all_short : Forall (fun name => String.length name <= 5) students.
Proof. repeat constructor. Qed.

Lemma students_callback_rejects (p : pid) (r : Q) (st : rt) :
  (0 <= r)%Q -> (r < 1)%Q ->
  students_callback p r st = settle p (Throw (VStr "failure")) st.
Proof.
  intros H0 H1. pose proof (randomIndex_range r H0 H1) as Hi.
  unfold students_callback.
  assert (randomIndex r = 0 ∨ randomIndex r = 1 ∨ randomIndex r = 2 ∨ randomIndex r = 3)%Z
    as [-> | [-> | [-> | ->]]] by lia; reflexivity.
Qed.

Lemma MyPromise_first_turn (r : Q) :
  step (snd (MyPromise r init))
  = Some (students_callback 0 r (Rt {[0 := fresh_promise]} 1 ∅ 0 [] [] 5000 [])).
Proof. reflexivity. Qed.

(** C9: the conditional promise of level90 rejects with ["failure"] whatever
    [Math.random()] returns in [0, 1): every name of the list has at most five
    characters, the index always selects one of them, so the branch that
    resolves with ["success"] is never taken; the promise is pending before
    its timer fires and rejected with ["failure"] at every later turn. *)
Theorem MyPromise_always_rejects (r : Q) (n : nat) :
  (0 <= r)%Q -> (r < 1)%Q ->
  Forall (fun name => String.length name <= 5) students
  ∧ is_Some (element students (randomIndex r))
  ∧ outcome_of (fst (MyPromise r init)) (snd (MyPromise r init)) = None
  ∧ outcome_of (fst (MyPromise r init)) (run (S n) (snd (MyPromise r init)))
    = Some (Throw (VStr "failure")).
Proof.
  intros H0 H1. split; [apply students_all_short |]. split.
  { pose proof (randomIndex_range r H0 H1) as Hi.
    assert (randomIndex r = 0 ∨ randomIndex r = 1 ∨ randomIndex r = 2 ∨ randomIndex r = 3)%Z
      as [-> | [-> | [-> | ->]]] by lia; by eexists. }
  split; [reflexivity |].
  rewrite (run_step n _ _ (MyPromise_first_turn r)).
  rewrite (students_callback_rejects 0 r _ H0 H1).
  rewrite run_quiescent; reflexivity.
Qed.

Lemma MyPromise_always_rejects_witness :
  outcome_of (fst (MyPromise (1 # 2) init)) (run 1 (snd (MyPromise (1 # 2) init)))
  = Some (Throw (VStr "failure")).
Proof.
  refine (proj2 (proj2 (proj2 (MyPromise_always_rejects (1 # 2) 0 _ _))));
    [discriminate | reflexivity].
Defined.

(** ** [Promise.all] *)

(** C7: the parallel combinator applied to an empty input list fulfills
    immediately, inside the call and before any turn of the event loop, with
    an empty result list. *)
Theorem promise_all_empty_fulfills_immediately (st : rt) :
  outcome_of (fst (promise_all [] st)) (snd (promise_all [] st))
  = Some (Normal (VArr [])).
Proof.
  unfold promise_all, alloc. simpl.
  rewrite lookup_insert_eq. simpl.
  unfold settle. simpl. rewrite lookup_insert_eq. simpl.
  unfold outcome_of. simpl. by rewrite lookup_insert_eq.
Qed.

(** *** The state after the script has run *)

Lemma elem_of_entries ins : ∀ b x,
  x ∈ entries b ins ↔ ∃ i, x.1 = b + i ∧ ins !! i = Some x.2.
Proof.
  induction ins as [|y ins IH]; intros b x; simpl.
  - split; [by intros ?%elem_of_nil | by intros (i & _ & ?)].
  - rewrite elem_of_cons, IH. split.
    + intros [-> | (i & Hi & Hl)]; [exists 0; simpl; split; [lia | done] |].
      exists (S i). split; [lia | done].
    + intros ([|i] & Hi & Hl); simpl in Hl.
      * left. destruct x as [p z]. simpl in *. injection Hl as ->. f_equal. lia.
      * right. exists i. split; [lia | done].
Qed.

Lemma entries_sorted ins : ∀ b, StronglySorted (fun a b => a.1 < b.1) (entries b ins).
Proof.
  induction ins as [|y ins IH]; intros b; simpl; constructor; [apply IH |].
  apply Forall_forall. intros x (i & Hi & _)%elem_of_entries. simpl. lia.
Qed.

Lemma length_entries ins b : length (entries b ins) = length ins.
Proof. revert b. induction ins; intros b; simpl; [done | by rewrite IHins]. Qed.

(** The inputs get consecutive identifiers, are pending, and their timers are
    registered in input order. *)
Lemma make_inputs_spec ins : ∀ st,
  clock st = 0 ->
  ∃ h',
    make_inputs ins st
    = (seq (next st) (length ins),
       Rt h' (next st + length ins) (aggs st) (next_agg st) (jobs st)
          (timers st ++ (timer_of <$> entries (next st) ins)) 0 (trace st))
    ∧ (∀ i, i < length ins -> h' !! (next st + i) = Some fresh_promise)
    ∧ (∀ p, p < next st -> h' !! p = heap st !! p).
Proof.
  induction ins as [|[d c] ins IH]; intros st Hck.
  - exists (heap st). simpl. rewrite Nat.add_0_r, app_nil_r. destruct st; simpl in *; subst.
    split; [done |]. split; [intros; lia | done].
  - simpl. unfold setTimeout. norm.
    edestruct (IH (Rt (<[next st := fresh_promise]> (heap st)) (S (next st)) (aggs st)
                     (next_agg st) (jobs st) (timers st ++ [Timer (clock st + d) (cb_of (next st) c)])
                     (clock st) (trace st))) as (h' & -> & Hin & Hold); [done |].
    simpl in *. exists h'. rewrite Hck. simpl. rewrite <- app_assoc. simpl.
    replace (S (next st + length ins)) with (next st + S (length ins)) by lia.
    repeat split.
    + intros [|i] Hi.
      * rewrite Nat.add_0_r, Hold by lia. by heap_lookup.
      * replace (next st + S i) with (S (next st + i)) by lia. apply Hin. lia.
    + intros p Hp. rewrite Hold by lia. by heap_lookup.
Qed.

(** The loop of [Promise.all] registers one resolve-element reaction per
    input, with the index of the input, and reserves one slot per input. *)
Lemma all_elements_spec a ps : ∀ i st ag,
  aggs st !! a = Some ag -> NoDup ps ->
  (∀ p, p ∈ ps -> heap st !! p = Some fresh_promise) ->
  ∃ h',
    all_elements a i ps st
    = Rt h' (next st)
         (<[a := AllRecord (values ag ++ replicate (length ps) None)
                           (remaining ag + length ps) (capability ag)]> (aggs st))
         (next_agg st) (jobs st) (timers st) (clock st) (trace st)
    ∧ (∀ j p, ps !! j = Some p ->
         h' !! p = Some (Promise Pending None None [RAllElement a (i + j)]))
    ∧ (∀ p, p ∉ ps -> h' !! p = heap st !! p).
Proof.
  induction ps as [|p ps IH]; intros i st ag Hag Hnd Hfresh.
  - exists (heap st). simpl. rewrite app_nil_r, Nat.add_0_r.
    destruct ag as [vs r c]. simpl. rewrite insert_id by done.
    destruct st; simpl. split; [done |]. split; [by intros [|?] ? | done].
  - apply NoDup_cons in Hnd as [Hp Hnd].
    simpl. rewrite Hag. unfold subscribe. norm.
    rewrite (Hfresh p) by (by left). norm.
    edestruct (IH (S i)
      (Rt (<[p := Promise Pending None None [RAllElement a i]]> (heap st)) (next st)
          (<[a := AllRecord (values ag ++ [None]) (S (remaining ag)) (capability ag)]> (aggs st))
          (next_agg st) (jobs st) (timers st) (clock st) (trace st))
      (AllRecord (values ag ++ [None]) (S (remaining ag)) (capability ag)))
      as (h' & -> & Hin & Hout).
    + simpl. apply lookup_insert_eq.
    + done.
    + intros q Hq. simpl. rewrite lookup_insert_ne; [apply Hfresh; by right |].
      intros ->. done.
    + exists h'. simpl. rewrite insert_insert_eq, <- app_assoc. simpl.
      replace (S (remaining ag + length ps)) with (remaining ag + S (length ps)) by lia.
      split; [done |]. split.
      * intros [|j] q Hq; simpl in Hq.
        -- injection Hq as <-. rewrite Hout by done. simpl.
           by rewrite lookup_insert_eq, Nat.add_0_r.
        -- replace (i + S j) with (S i + j) by lia. by apply Hin.
      * intros q Hq. apply not_elem_of_cons in Hq as [Hne Hq].
        rewrite Hout by done. simpl. by rewrite lookup_insert_ne.
Qed.

(** After the script has run, the invariant holds with all inputs
    outstanding. *)
Lemma parallel_program_setup ins :
  ins ≠ [] ->
  fst (parallel_program ins) = length ins
  ∧ par_inv ins (entries 0 ins) (snd (parallel_program ins)).
Proof.
  intros Hne. unfold parallel_program, parallel.
  destruct (make_inputs_spec ins init eq_refl) as (h1 & -> & Hin & _).
  unfold init. simpl.
  unfold promise_all, alloc. norm.
  set (n := length ins) in *.
  destruct (all_elements_spec 0 (seq 0 n) 0
              (Rt (<[n := fresh_promise]> h1) (S n) (<[0 := AllRecord [] 1 n]> ∅) 1 []
                  (timer_of <$> entries 0 ins) 0 [])
              (AllRecord [] 1 n)) as (h2 & Heq & Hin2 & Hout2).
  { simpl. apply lookup_insert_eq. }
  { apply NoDup_seq. }
  { intros p Hp%elem_of_seq. simpl. rewrite lookup_insert_ne by lia. apply (Hin p). lia. }
  simpl in Heq, Hin2, Hout2. rewrite length_seq in Heq. rewrite insert_insert_eq in Heq.
  rewrite Heq. norm. heap_lookup. norm.
  destruct n as [|m] eqn:Hn; [by destruct ins |]. rewrite insert_insert_eq.
  unfold promise_then, alloc, subscribe. norm.
  rewrite lookup_insert_ne by lia.
  rewrite (Hout2 (S m)) by (rewrite elem_of_seq; lia).
  heap_lookup. norm.
  split; [done |].
  assert (Hlen : length ins = S m) by done. clear Hn.
  assert (Hidx : ∀ x, x ∈ entries 0 ins -> ins !! x.1 = Some x.2 ∧ x.1 < S m).
  { intros x (i & Hi & Hl)%elem_of_entries. simpl in Hi. rewrite Hi.
    split; [done |]. rewrite <- Hlen. by eapply lookup_lt_Some. }
  constructor; simpl.
  - done.
  - done.
  - apply entries_sorted.
  - intros x Hx. by apply Hidx.
  - exists (replicate (S m) None). rewrite length_entries, Hlen.
    split; [by rewrite lookup_insert_eq |]. split; [by rewrite length_replicate |].
    split.
    + intros x Hx. apply lookup_replicate_2. by apply Hidx.
    + intros i d c Hi Hni. exfalso. apply Hni, elem_of_entries. by exists i.
  - intros x Hx. destruct (Hidx x Hx) as [_ Hlt].
    rewrite !lookup_insert_ne by lia.
    apply (Hin2 (x.1) (x.1)). apply lookup_seq. lia.
  - rewrite Hlen. by rewrite lookup_insert_eq.
  - rewrite Hlen. rewrite lookup_insert_ne by lia. by rewrite lookup_insert_eq.
  - done.
Qed.

(** *** One input settles *)

Lemma pick_entries ents t rest :
  pick_timer (timer_of <$> ents) = Some (t, rest) ->
  ∃ l1 u l2, ents = l1 ++ u :: l2 ∧ t = timer_of u ∧ rest = timer_of <$> (l1 ++ l2)
    ∧ Forall (fun x => u.2.1 < x.2.1) l1
    ∧ Forall (fun x => u.2.1 <= x.2.1) l2.
Proof.
  intros (k1 & k2 & Heq & -> & H1 & H2)%pick_timer_spec.
  apply fmap_app_inv in Heq as (l1 & l2' & -> & Heq & ->).
  symmetry in Heq. apply fmap_cons_inv in Heq as (u & l2 & -> & -> & ->).
  exists l1, u, l2. rewrite fmap_app.
  rewrite Forall_forall in H1, H2.
  repeat split; apply Forall_forall; intros x Hx.
  - apply (H1 (timer_of x)), list_elem_of_fmap. eauto.
  - apply (H2 (timer_of x)), list_elem_of_fmap. eauto.
Qed.

Lemma sorted_middle (l1 l2 : list (nat * (nat * completion))) u :
  StronglySorted (fun a b => a.1 < b.1) (l1 ++ u :: l2) ->
  StronglySorted (fun a b => a.1 < b.1) (l1 ++ l2)
  ∧ (∀ x, x ∈ l1 -> x.1 < u.1) ∧ (∀ x, x ∈ l2 -> u.1 < x.1).
Proof.
  rewrite !StronglySorted_app, StronglySorted_cons, Forall_forall.
  intros (H12 & H1 & Hu & H2). split; [| split].
  - split; [| done]. intros x1 x2 Hx1 Hx2. apply H12; [done | by right].
  - intros x Hx. apply H12; [done | by left].
  - done.
Qed.

(** An input fulfils while others are outstanding: its value is stored at
    its index, two turns later the invariant holds for the remaining ones. *)
Lemma par_turn_fulfil ins l1 l2 i d v st :
  par_inv ins (l1 ++ (i, (d, Normal v)) :: l2) st ->
  pick_timer (timers st)
  = Some (timer_of (i, (d, Normal v)), timer_of <$> (l1 ++ l2)) ->
  l1 ++ l2 ≠ [] ->
  par_inv ins (l1 ++ l2) (run 2 st).
Proof.
  intros [Hj Ht Hs He (vals & Hag & Hlen & Hnone & Hsome) Hp Hr Hd Hc] Hpick Hne.
  destruct (sorted_middle _ _ _ Hs) as (Hs' & Hlt1 & Hlt2).
  assert (Hu : (i, (d, Normal v)) ∈ l1 ++ (i, (d, Normal v)) :: l2).
  { apply elem_of_app. right. by left. }
  assert (Hother : ∀ x, x ∈ l1 ++ l2 -> x ∈ l1 ++ (i, (d, Normal v)) :: l2 ∧ x.1 ≠ i).
  { intros x [Hx|Hx]%elem_of_app.
    - split; [apply elem_of_app; by left |]. specialize (Hlt1 x Hx). simpl in Hlt1. lia.
    - split; [apply elem_of_app; right; by right |]. specialize (Hlt2 x Hx). simpl in Hlt2. lia. }
  pose proof (Hp _ Hu) as Hpu. pose proof (Hnone _ Hu) as Hnu.
  rewrite (run_step 1 st _ (step_timer st _ _ Hj Hpick)).
  destruct st as [h nx ag na js ts ck tr]. simpl in *. subst js.
  unfold settle. norm. rewrite Hpu. norm.
  erewrite run_step by (apply step_job; reflexivity). norm.
  unfold resolve_element. norm. rewrite Hag. norm. rewrite Hnu. norm.
  rewrite length_app. simpl. rewrite Nat.add_succ_r. simpl. rewrite <- length_app.
  destruct (length (l1 ++ l2)) as [|m] eqn:Hm; [by destruct (l1 ++ l2) |].
  norm. unfold run.
  constructor; simpl.
  - done.
  - done.
  - done.
  - intros x Hx. apply He. by apply Hother.
  - exists (<[i := Some v]> vals). rewrite lookup_insert_eq, Hm.
    split; [done |]. split; [by rewrite length_insert |]. split.
    + intros x Hx. destruct (Hother x Hx) as [Hx' Hxi].
      rewrite list_lookup_insert_ne by done. by apply Hnone.
    + intros i' d' c' Hi' Hni'. destruct (decide (i' = i)) as [->|Hii].
      * specialize (He _ Hu). simpl in He. rewrite Hi' in He. injection He as -> ->.
        exists v. split; [done |]. apply list_lookup_insert_eq.
        rewrite Hlen. by eapply lookup_lt_Some.
        
      * rewrite list_lookup_insert_ne by done. apply (Hsome i' d' c' Hi').
        intros [Hx|Hx]%elem_of_app; apply Hni', elem_of_app; [by left |].
        apply elem_of_cons in Hx as [[=]|Hx]; [done | by right].
  - intros x Hx. destruct (Hother x Hx) as [Hx' Hxi].
    rewrite lookup_insert_ne by done. by apply Hp.
  - rewrite lookup_insert_ne; [done |].
    intros ->. specialize (He _ Hu). simpl in He. apply lookup_lt_Some in He. lia.
  - rewrite lookup_insert_ne; [done |].
    intros ->. specialize (He _ Hu). simpl in He. apply lookup_lt_Some in He. lia.
  - unfold console in *. simpl in *. rewrite omap_app, Hc. done.
Qed.

Lemma all_values ins : ∀ vals,
  length vals = length ins ->
  (∀ j d c, ins !! j = Some (d, c) -> ∃ v, c = Normal v ∧ vals !! j = Some (Some v)) ->
  from_option id VUndef <$> vals = input_values ins.
Proof.
  induction ins as [|[d c] ins IH]; intros [|o vals] Hlen H; try done.
  destruct (H 0 d c eq_refl) as (v & -> & [= ->]).
  unfold input_values. simpl. f_equal. apply IH; [simpl in Hlen; lia |].
  intros j d' c' Hj. apply (H (S j) d' c' Hj).
Qed.

(** The last outstanding input fulfils: the result is resolved with the
    values in input order and the handler prints them. *)
Lemma par_turn_last ins i d v st :
  par_inv ins [(i, (d, Normal v))] st ->
  quiescent (run 3 st)
  ∧ console (run 3 st) = [VArr (input_values ins)]
  ∧ outcome_of (length ins) (run 3 st) = Some (Normal (VArr (input_values ins))).
Proof.
  intros [Hj Ht Hs He (vals & Hag & Hlen & Hnone & Hsome) Hp Hr Hd Hc].
  assert (Hu : (i, (d, Normal v)) ∈ [(i, (d, Normal v))]) by (by left).
  pose proof (Hp _ Hu) as Hpu. pose proof (Hnone _ Hu) as Hnu.
  pose proof (He _ Hu) as Heu. simpl in Heu.
  assert (Hi : i < length ins) by (by eapply lookup_lt_Some).
  assert (Hvals : from_option id VUndef <$> <[i := Some v]> vals = input_values ins).
  { apply all_values; [by rewrite length_insert |].
    intros j d' c' Hj'. destruct (decide (j = i)) as [->|Hne].
    - rewrite Hj' in Heu. injection Heu as -> ->. exists v. split; [done |].
      apply list_lookup_insert_eq. lia.
    - rewrite list_lookup_insert_ne by done. apply (Hsome j d' c' Hj').
      intros [[=]|[]%elem_of_nil]%elem_of_cons. done. }
  destruct st as [h nx ag na js ts ck tr]. simpl in *. subst js ts.
  erewrite run_step by (apply step_timer; reflexivity). norm.
  unfold settle. norm. rewrite Hpu. norm.
  erewrite run_step by (apply step_job; reflexivity). norm.
  unfold resolve_element. norm. rewrite Hag. norm. rewrite Hnu. norm.
  rewrite Hvals.
  unfold settle. norm. rewrite lookup_insert_ne by lia. rewrite Hr. norm.
  erewrite run_step by (apply step_job; reflexivity). norm.
  unfold call_handler, settle. norm. rewrite !lookup_insert_ne by lia. rewrite Hd. norm.
  unfold run. split; [by split |]. split.
  - unfold console in *. simpl in *. rewrite <- !app_assoc. rewrite omap_app, Hc. done.
  - unfold outcome_of. simpl. rewrite lookup_insert_ne by lia.
    by rewrite lookup_insert_eq.
Qed.

(** An input rejects while the result is pending: the result is rejected
    with its error, and so is the promise derived by [then], whose handler
    is not called. *)
Lemma par_turn_reject ins l1 l2 i d e st :
  par_inv ins (l1 ++ (i, (d, Throw e)) :: l2) st ->
  pick_timer (timers st)
  = Some (timer_of (i, (d, Throw e)), timer_of <$> (l1 ++ l2)) ->
  outcome_of (length ins) (run 3 st) = Some (Throw e)
  ∧ outcome_of (S (length ins)) (run 3 st) = Some (Throw e)
  ∧ console (run 3 st) = [].
Proof.
  intros [Hj Ht Hs He (vals & Hag & Hlen & Hnone & Hsome) Hp Hr Hd Hc] Hpick.
  assert (Hu : (i, (d, Throw e)) ∈ l1 ++ (i, (d, Throw e)) :: l2).
  { apply elem_of_app. right. by left. }
  pose proof (Hp _ Hu) as Hpu. pose proof (He _ Hu) as Heu. simpl in Heu.
  assert (Hi : i < length ins) by (by eapply lookup_lt_Some).
  rewrite (run_step 2 st _ (step_timer st _ _ Hj Hpick)).
  destruct st as [h nx ag na js ts ck tr]. simpl in *. subst js.
  unfold settle. norm. rewrite Hpu. norm.
  erewrite run_step by (apply step_job; reflexivity). norm.
  rewrite Hag. norm.
  unfold settle. norm. rewrite lookup_insert_ne by lia. rewrite Hr. norm.
  erewrite run_step by (apply step_job; reflexivity). norm.
  unfold settle. norm. rewrite !lookup_insert_ne by lia. rewrite Hd. norm.
  unfold run, outcome_of. simpl. split; [| split].
  - rewrite lookup_insert_ne by lia. by rewrite lookup_insert_eq.
  - by rewrite lookup_insert_eq.
  - unfold console in *. simpl in *. rewrite <- !app_assoc. rewrite omap_app, Hc. done.
Qed.

(** *** The whole run *)

Lemma wf_parallel_program ins : wf_rt (snd (parallel_program ins)).
Proof.
  unfold parallel_program, parallel.
  pose proof (keeps_make_inputs ins init) as H1.
  destruct (make_inputs ins init) as [ps st1]. simpl in H1.
  pose proof (keeps_promise_all ps st1) as H2.
  destruct (promise_all ps st1) as [r st2]. simpl in H2.
  pose proof (keeps_promise_then r (Some log_results) None st2) as H3.
  destruct (promise_then r (Some log_results) None st2) as [d st3]. simpl in *.
  exact (proj1 (keeps_trans _ _ _ H1 (keeps_trans _ _ _ H2 H3) wf_init)).
Qed.

Lemma par_run_fulfil ins : ∀ k ents st,
  length ents = S k -> par_inv ins ents st ->
  Forall (fun x => ∃ v, x.2.2 = Normal v) ents ->
  quiescent (run (2 * k + 3) st)
  ∧ console (run (2 * k + 3) st) = [VArr (input_values ins)]
  ∧ outcome_of (length ins) (run (2 * k + 3) st)
    = Some (Normal (VArr (input_values ins))).
Proof.
  induction k as [|k IH]; intros ents st Hlen Hinv Hall.
  - destruct ents as [|[i [d c]] [|? ?]]; try done.
    apply Forall_cons in Hall as [[v Hv] _]. simpl in Hv. subst c.
    by apply (par_turn_last ins i d v).
  - destruct (pick_timer_is_Some (timers st)) as [[t rest] Hpick].
    { rewrite (pi_timers _ _ _ Hinv). by destruct ents. }
    pose proof Hpick as Hpick'. rewrite (pi_timers _ _ _ Hinv) in Hpick'.
    apply pick_entries in Hpick' as (l1 & [i [d c]] & l2 & -> & -> & -> & _ & _).
    assert (Hu : ∃ v, c = Normal v).
    { rewrite Forall_forall in Hall.
      apply (Hall (i, (d, c))), elem_of_app. right. by left. }
    destruct Hu as [v ->].
    assert (Hlen' : length (l1 ++ l2) = S k).
    { rewrite length_app in *. simpl in Hlen. lia. }
    replace (2 * S k + 3) with (2 + (2 * k + 3)) by lia. rewrite run_add.
    apply (IH (l1 ++ l2)); [done | |].
    + apply (par_turn_fulfil ins l1 l2 i d v); [done | done |].
      intros Hnil. by rewrite Hnil in Hlen'.
    + apply Forall_app in Hall as [H1 [_ H2]%Forall_cons]. by apply Forall_app.
Qed.

Lemma input_values_in_order ins :
  Forall (fun x => ∃ v, x.2 = Normal v) ins ->
  Forall2 (fun x v => x.2 = Normal v) ins (input_values ins).
Proof.
  induction 1 as [|[d c] ins [v Hv] _ IH]; [constructor |].
  simpl in Hv. subst c. unfold input_values. simpl. by constructor.
Qed.

(** C1: for every non-empty list of inputs that all fulfil, whatever their
    delays and hence whatever the order in which they settle,
    [Promise.all] fulfils with the list of their values in input order, and
    that list is what the [then] handler prints; in particular the inputs of
    level92, settling after 1000, 2000 and 1500 ms, give
    [["First", "Second", "Third"]]. *)
Theorem parallel_results_in_input_order (ins : list (nat * completion)) (m : nat) :
  ins ≠ [] ->
  Forall (fun x => ∃ v, x.2 = Normal v) ins ->
  let r := fst (parallel_program ins) in
  let st := run (2 * length ins + 1 + m) (snd (parallel_program ins)) in
  Forall2 (fun x v => x.2 = Normal v) ins (input_values ins)
  ∧ outcome_of r st = Some (Normal (VArr (input_values ins)))
  ∧ console st = [VArr (input_values ins)]
  ∧ quiescent st
  ∧ console (run (7 + m) (snd (parallel_program level92_inputs)))
    = [VArr [VStr "First"; VStr "Second"; VStr "Third"]].
Proof.
  intros Hne Hall r st.
  assert (Hgen : ∀ l, l ≠ [] -> Forall (fun x => ∃ v, x.2 = Normal v) l ->
            let s := run (2 * length l + 1 + m) (snd (parallel_program l)) in
            outcome_of (fst (parallel_program l)) s = Some (Normal (VArr (input_values l)))
            ∧ console s = [VArr (input_values l)] ∧ quiescent s).
  { clear. intros l Hne Hall s.
    destruct (parallel_program_setup l Hne) as [Hr Hinv].
    assert (Hlen : length (entries 0 l) = S (pred (length l))).
    { rewrite length_entries. destruct l; [done | simpl; lia]. }
    destruct (par_run_fulfil l (pred (length l)) (entries 0 l) _ Hlen Hinv) as (Hq & Hc & Ho).
    { apply Forall_forall. intros y (i & _ & Hi)%elem_of_entries.
      rewrite Forall_forall in Hall. apply (Hall y.2).
      by eapply list_elem_of_lookup_2. }
    subst s. replace (2 * length l + 1 + m) with (2 * pred (length l) + 3 + m)
      by (destruct l; [done | simpl; lia]).
    rewrite run_add. rewrite run_quiescent by (by apply step_None_quiescent).
    by rewrite Hr. }
  split; [by apply input_values_in_order |].
  destruct (Hgen ins Hne Hall) as (Ho & Hc & Hq).
  repeat (split; [done |]).
  apply (Hgen level92_inputs); [done |].
  repeat constructor; by eexists.
Qed.

Lemma parallel_results_in_input_order_witness :
  outcome_of 3 (run 7 (snd (parallel_program level92_inputs)))
  = Some (Normal (VArr [VStr "First"; VStr "Second"; VStr "Third"])).
Proof.
  refine (proj1 (proj2 (parallel_results_in_input_order level92_inputs 0 _ _))).
  - discriminate.
  - repeat constructor; by eexists.
Defined.







Section FirstRejection.
Variable ins : list (nat * completion).
Variables (j dj : nat) (e : val).
Hypothesis Hj : ins !! j = Some (dj, Throw e).
(** Input [j] rejects before every other rejecting input: strictly earlier,
    or at the same time and registered earlier. *)
Hypothesis Hfirst : ∀ i d e', ins !! i = Some (d, Throw e') -> i ≠ j ->
  dj < d ∨ (dj = d ∧ j < i).



End FirstRejection.




(** ** [runSequential] *)

(** One step of the chain: its timer fires, the step's body ends, and
    [runSequential] is resumed. *)
Lemma chain_cycle s rest self k h nx ag na ck tr :
  self < nx -> h !! self = Some fresh_promise ->
  ∃ h' ck',
    h' !! self = Some fresh_promise
    ∧ run 3 (chain self k (s :: rest) (Rt h nx ag na [] [] ck tr))
      = match body_end s with
        | Normal v =>
            chain self (S k) rest
              (Rt h' (S (S nx)) ag na [] [] ck'
                  (tr ++ [EvInvoke k nx; EvSettle (S nx) (Normal VUndef);
                          EvSettle nx (Normal v); EvLog v]))
        | Throw e =>
            Rt (<[self := Promise Rejected None (Some e) []]> h') (S (S nx)) ag na [] [] ck'
               (tr ++ [EvInvoke k nx; EvSettle (S nx) (Normal VUndef);
                       EvSettle nx (Throw e); EvSettle self (Throw e)])
        end.
Proof.
  intros Hlt Hself.
  unfold chain at 1. unfold call_step, alloc, setTimeout, subscribe.
  norm. heap_lookup. norm. heap_lookup. norm.
  turn. unfold settle at 1. norm. heap_lookup. norm.
  turn. norm. unfold settle at 1. norm. heap_lookup. norm.
  turn. norm.
  destruct (body_end s) as [v|e]; norm.
  - eexists _, _. split; [| rewrite <- !app_assoc; reflexivity].
    by heap_lookup.
  - unfold settle. norm. heap_lookup. rewrite Hself. norm.
    eexists _, _. split; [| rewrite <- !app_assoc; reflexivity].
    by heap_lookup.
Qed.

(** The chain from step [k] on runs to its end in [chain_turns steps] turns
    and records [chain_trace]. *)
Lemma chain_run steps : ∀ self k h nx ag na ck tr,
  self < nx -> h !! self = Some fresh_promise ->
  ∃ h' nx' ck',
    run (chain_turns steps) (chain self k steps (Rt h nx ag na [] [] ck tr))
    = Rt h' nx' ag na [] [] ck' (tr ++ chain_trace self k nx steps)
    ∧ h' !! self ≫= outcome = Some (chain_outcome steps).
Proof.
  induction steps as [|s rest IH]; intros self k h nx ag na ck tr Hlt Hself.
  - simpl. unfold settle. norm. rewrite Hself. norm.
    eexists _, _, _. split; [reflexivity |]. by heap_lookup.
  - cbn [chain_turns chain_trace chain_outcome]. rewrite run_add.
    destruct (chain_cycle s rest self k h nx ag na ck tr Hlt Hself)
      as (h' & ck' & Hself' & ->).
    destruct (body_end s) as [v|e].
    + destruct (IH self (S k) h' (S (S nx)) ag na ck'
                  (tr ++ [EvInvoke k nx; EvSettle (S nx) (Normal VUndef);
                          EvSettle nx (Normal v); EvLog v]))
        as (h'' & nx'' & ck'' & -> & Ho); [lia | done |].
      eexists _, _, _. split; [| exact Ho]. by rewrite <- app_assoc.
    + eexists _, _, _. split; [reflexivity |]. by heap_lookup.
Qed.

(** The whole run of [runSequential()] from the initial state. *)
Lemma runSequential_run steps n :
  let st := run (chain_turns steps + n) (snd (runSequential steps init)) in
  fst (runSequential steps init) = 0
  ∧ trace st = chain_trace 0 0 1 steps
  ∧ outcome_of 0 st = Some (chain_outcome steps)
  ∧ quiescent st.
Proof.
  intros st. subst st. rewrite run_add. unfold runSequential, alloc, init. simpl.
  destruct (chain_run steps 0 0 (<[0 := fresh_promise]> ∅) 1 ∅ 0 0 [])
    as (h' & nx' & ck' & -> & Ho); [lia | by heap_lookup |].
  rewrite run_quiescent by (apply step_None_quiescent; by split).
  repeat split; done.
Qed.

Lemma wf_runSequential steps : wf_rt (snd (runSequential steps init)).
Proof.
  unfold runSequential.
  refine (proj1 (keeps_trans _ _ _ (keeps_alloc init) (keeps_chain _ _ _ _) wf_init)).
Qed.

(** *** Order of calls *)

Lemma ordered_prefix tr tr' : tr `prefix_of` tr' -> ordered tr' -> ordered tr.
Proof.
  intros [es ->] Ho t1 t2 k p ->. apply (Ho t1 (t2 ++ es) k p).
  by rewrite <- app_assoc.
Qed.

Lemma ordered_snoc tr e :
  ordered tr ->
  (∀ k p, e = EvInvoke (S k) p -> ∃ q c, EvInvoke k q ∈ tr ∧ EvSettle q c ∈ tr) ->
  ordered (tr ++ [e]).
Proof.
  intros Ho He t1 t2 k p Heq.
  destruct t2 as [|x t2 _] using rev_ind.
  - apply app_inj_tail in Heq as [-> ->]. by apply (He k p).
  - rewrite app_comm_cons, app_assoc in Heq.
    apply app_inj_tail in Heq as [-> _]. by apply (Ho t1 t2 k p).
Qed.

Lemma ordered_chain_trace steps : ∀ self k nx pre,
  ordered pre ->
  (∀ k', k = S k' -> ∃ q c, EvInvoke k' q ∈ pre ∧ EvSettle q c ∈ pre) ->
  ordered (pre ++ chain_trace self k nx steps).
Proof.
  induction steps as [|s rest IH]; intros self k nx pre Ho Hk; simpl.
  - apply ordered_snoc; [done | discriminate].
  - assert (H1 : ordered (pre ++ [EvInvoke k nx])).
    { apply ordered_snoc; [done |]. intros k' p [= -> _]. by apply Hk. }
    assert (H2 : ordered ((pre ++ [EvInvoke k nx]) ++ [EvSettle (S nx) (Normal VUndef)])).
    { apply ordered_snoc; [done | discriminate]. }
    assert (H3 : ordered (((pre ++ [EvInvoke k nx]) ++ [EvSettle (S nx) (Normal VUndef)])
                          ++ [EvSettle nx (body_end s)])).
    { apply ordered_snoc; [done | discriminate]. }
    rewrite <- !app_assoc in H3. simpl in H3.
    destruct (body_end s) as [v|e].
    + assert (H4 : ordered ((pre ++ [EvInvoke k nx; EvSettle (S nx) (Normal VUndef);
                                     EvSettle nx (Normal v)]) ++ [EvLog v])).
      { apply ordered_snoc; [done | discriminate]. }
      rewrite <- app_assoc in H4. simpl in H4.
      specialize (IH self (S k) (S (S nx)) _ H4).
      rewrite <- app_assoc in IH. simpl in IH. apply IH.
      intros k' [= <-]. exists nx, (Normal v).
      split; apply elem_of_app; right; set_solver.
    + assert (H4 : ordered ((pre ++ [EvInvoke k nx; EvSettle (S nx) (Normal VUndef);
                                     EvSettle nx (Throw e)]) ++ [EvSettle self (Throw e)])).
      { apply ordered_snoc; [done | discriminate]. }
      by rewrite <- app_assoc in H4.
Qed.

(** C2: for every list of steps and at every moment of the run, a step is
    called only after the step before it was called and the promise that call
    returned has settled; and for steps returning ["First"], ["Second"],
    ["Third"] the console shows exactly First, Second, Third whatever the
    three delays are (the source has 1000, 2000 and 1500 ms). *)
Theorem sequential_steps_run_in_order (steps : list step_fn) (n d1 d2 d3 : nat) :
  ordered (trace (run n (snd (runSequential steps init))))
  ∧ console (run (9 + n)
               (snd (runSequential [StepFn d1 (Normal (VStr "First"));
                                    StepFn d2 (Normal (VStr "Second"));
                                    StepFn d3 (Normal (VStr "Third"))] init)))
    = [VStr "First"; VStr "Second"; VStr "Third"].
Proof.
  split.
  - eapply ordered_prefix.
    + apply (trace_grows n (chain_turns steps)), wf_runSequential.
    + rewrite (Nat.add_comm n).
      destruct (runSequential_run steps n) as (_ & -> & _).
      apply (ordered_chain_trace steps 0 0 1 []); [| discriminate].
      intros t1 t2 k p Heq. by destruct t1.
  - unfold console.
    set (l := [StepFn d1 (Normal (VStr "First")); StepFn d2 (Normal (VStr "Second"));
               StepFn d3 (Normal (VStr "Third"))]).
    change (9 + n) with (chain_turns l + n).
    destruct (runSequential_run l n) as (_ & -> & _). reflexivity.
Qed.

(** *** A rejecting step *)

Lemma chain_turns_rejecting pre d e post :
  Forall fulfils pre ->
  chain_turns (pre ++ StepFn d (Throw e) :: post) = 3 * S (length pre).
Proof.
  induction 1 as [|s pre [v Hv] _ IH]; [done |].
  cbn [app chain_turns length]. rewrite Hv, IH. lia.
Qed.

Lemma chain_outcome_rejecting pre d e post :
  Forall fulfils pre ->
  chain_outcome (pre ++ StepFn d (Throw e) :: post) = Throw e.
Proof.
  induction 1 as [|s pre [v Hv] _ IH]; [done |].
  cbn [app chain_outcome]. by rewrite Hv.
Qed.

Lemma chain_invoked_rejecting pre d e post : ∀ self k nx,
  Forall fulfils pre ->
  omap (fun ev => match ev with EvInvoke j _ => Some j | _ => None end)
       (chain_trace self k nx (pre ++ StepFn d (Throw e) :: post))
  = seq k (S (length pre)).
Proof.
  intros self k nx Hpre. revert k nx.
  induction Hpre as [|s pre [v Hv] _ IH]; intros k nx; [done |].
  cbn [app chain_trace length]. rewrite Hv. simpl. f_equal. apply IH.
Qed.

(** C4: if step [k] of the chain rejects (the steps before it having
    fulfilled, so that it is reached), then no step after [k] is ever called,
    at any moment of the run; steps [0..k] are each called once; and the
    promise returned by [runSequential()] is rejected with the error of step
    [k]. *)
Theorem rejected_step_aborts_chain
    (pre post : list step_fn) (d : nat) (e : val) (n : nat) :
  Forall fulfils pre ->
  let steps := pre ++ StepFn d (Throw e) :: post in
  let k := length pre in
  let final := run (3 * S k + n) (snd (runSequential steps init)) in
  (∀ j p, EvInvoke j p ∈ trace (run n (snd (runSequential steps init))) -> j <= k)
  ∧ invoked final = seq 0 (S k)
  ∧ outcome_of (fst (runSequential steps init)) final = Some (Throw e)
  ∧ quiescent final.
Proof.
  intros Hpre steps k final.
  destruct (runSequential_run steps n) as (Hself & Ht & Ho & Hq).
  unfold steps in Ht, Ho, Hq.
  rewrite (chain_turns_rejecting pre d e post Hpre) in Ht, Ho, Hq.
  rewrite (chain_outcome_rejecting pre d e post Hpre) in Ho.
  fold steps k final in Ht, Ho, Hq.
  assert (Hinv : invoked final = seq 0 (S k)).
  { unfold invoked. rewrite Ht. by apply chain_invoked_rejecting. }
  split; [| by rewrite Hself].
  intros j p Hin.
  assert (Hin' : EvInvoke j p ∈ trace final).
  { destruct (trace_grows n (3 * S k) _ (wf_runSequential steps)) as [es Hes].
    unfold final. rewrite (Nat.add_comm (3 * S k)), Hes.
    apply elem_of_app. by left. }
  assert (Hj : j ∈ invoked final).
  { unfold invoked. apply list_elem_of_omap. by exists (EvInvoke j p). }
  rewrite Hinv in Hj. apply elem_of_seq in Hj. lia.
Qed.

Lemma rejected_step_aborts_chain_witness :
  let steps := [StepFn 10 (Normal (VNum 1)); StepFn 5 (Throw (VStr "boom"));
                StepFn 1 (Normal (VNum 3))] in
  invoked (run 6 (snd (runSequential steps init))) = [0; 1]
  ∧ outcome_of 0 (run 6 (snd (runSequential steps init))) = Some (Throw (VStr "boom")).
Proof.
  intros steps.
  assert (Hpre : Forall fulfils [StepFn 10 (Normal (VNum 1))]).
  { repeat constructor. by exists (VNum 1). }
  pose proof (rejected_step_aborts_chain [StepFn 10 (Normal (VNum 1))]
                [StepFn 1 (Normal (VNum 3))] 5 (VStr "boom") 0 Hpre) as H.
  exact (conj (proj1 (proj2 H)) (proj1 (proj2 (proj2 H)))).
Defined.

(** *** Independence of the values *)





(** level92, the whole file: the two parts share the event loop; the array
    is printed when the slowest input settles (2000 ms), between the first
    and the second step of the chain (1000 and 3000 ms). *)
Lemma level92_console (n : nat) :
  console (run (16 + n) level92)
  = [VStr "First"; VArr [VStr "First"; VStr "Second"; VStr "Third"];
     VStr "Second"; VStr "Third"]
  ∧ quiescent (run (16 + n) level92).
Proof.
  rewrite run_add. rewrite run_quiescent; [by split |].
  apply step_None_quiescent. split; reflexivity.
Qed.

(** ** The points counter *)

Lemma increment_below (n : Z) :
  (n < Points.max_count)%Z -> Points.increment n = (n + 1)%Z.
Proof.
  intros Hlt. unfold Points.increment.
  destruct (n =? Points.max_count)%Z eqn:E; [apply Z.eqb_eq in E; lia | done].
Qed.

Lemma increment_bounds (n : Z) :
  (n <= Points.increment n <= n + 1)%Z
  ∧ ((n <= Points.max_count)%Z -> (Points.increment n <= Points.max_count)%Z).
Proof.
  unfold Points.increment.
  destruct (n =? Points.max_count)%Z eqn:E;
    [apply Z.eqb_eq in E | apply Z.eqb_neq in E]; lia.
Qed.

Lemma addPoint_increments (display_property : string) (w : Points.world) :
  (Points.points w < Points.max_count)%Z ->
  Points.points (Points.after (Points.addPoint display_property w))
  = (Points.points w + 1)%Z.
Proof.
  intros Hlt.
  unfold Points.addPoint, Points.updatePointsDisplay, Points.set_property. simpl.
  rewrite (increment_below _ Hlt). by destruct (Points.document w !! _).
Qed.

(** At 2^53 the counter is stuck: [points++] leaves it where it is. *)
Lemma addPoint_saturates (display_property : string) (w : Points.world) :
  Points.points w = Points.max_count ->
  Points.points (Points.after (Points.addPoint display_property w)) = Points.points w.
Proof.
  intros Heq.
  unfold Points.addPoint, Points.updatePointsDisplay, Points.set_property. simpl.
  unfold Points.increment. rewrite Heq, Z.eqb_refl.
  by destruct (Points.document w !! _).
Qed.

(** C10: calling [add100] leaves the [points] counter unchanged for every
    starting value: [points + 100] is computed and discarded, so after
    [add100] returns (or throws in the display update) [points] has the value
    it had before the call. *)
Theorem add100_leaves_points_unchanged (display_property : string) (w : Points.world) :
  Points.points (Points.after (Points.add100 display_property w)) = Points.points w.
Proof.
  unfold Points.add100, Points.updatePointsDisplay, Points.set_property.
  by destruct (Points.document w !! _).
Qed.

(** ** The [then] patterns of level91 *)

(** *** Equations for the primitives *)

Lemma settle_pending p c st pr :
  heap st !! p = Some pr -> state pr = Pending ->
  settle p c st
  = Rt (<[p := settle_promise c pr]> (heap st)) (next st) (aggs st) (next_agg st)
       (jobs st ++ map (fun r => (r, c)) (reactions pr)) (timers st) (clock st)
       (trace st ++ [EvSettle p c]).
Proof. intros Hp Hs. unfold settle. by rewrite Hp, Hs. Qed.

Lemma promise_then_pending p onF onR st pr :
  heap st !! p = Some pr -> p ≠ next st -> state pr = Pending ->
  promise_then p onF onR st
  = (next st,
     Rt (<[p := Promise Pending (value pr) (error pr)
                   (reactions pr ++ [RThen onF onR (next st)])]>
           (<[next st := fresh_promise]> (heap st)))
        (S (next st)) (aggs st) (next_agg st) (jobs st) (timers st) (clock st) (trace st)).
Proof.
  intros Hp Hne Hs. unfold promise_then, alloc, subscribe. norm.
  rewrite lookup_insert_ne by done. rewrite Hp. unfold outcome. rewrite Hs. done.
Qed.

Lemma promise_then_settled p onF onR st pr c :
  heap st !! p = Some pr -> p ≠ next st -> outcome pr = Some c ->
  promise_then p onF onR st
  = (next st,
     Rt (<[next st := fresh_promise]> (heap st))
        (S (next st)) (aggs st) (next_agg st) (jobs st ++ [(RThen onF onR (next st), c)])
        (timers st) (clock st) (trace st)).
Proof.
  intros Hp Hne Ho. unfold promise_then, alloc, subscribe. norm.
  rewrite lookup_insert_ne by done. by rewrite Hp, Ho.
Qed.

Lemma run_callback_cb_of p c st : run_callback (cb_of p c) st = settle p c st.
Proof. by destruct c. Qed.

(** What a [then] job does when the derived promise is still pending. *)
Lemma run_then_job onF onR d c st pr :
  heap st !! d = Some pr -> state pr = Pending ->
  run_job (RThen onF onR d, c) st
  = Rt (<[d := settle_promise (snd (then_result onF onR c)) pr]> (heap st))
       (next st) (aggs st) (next_agg st)
       (jobs st ++ map (fun r => (r, snd (then_result onF onR c))) (reactions pr))
       (timers st) (clock st)
       (trace st ++ fst (then_result onF onR c)
                 ++ [EvSettle d (snd (then_result onF onR c))]).
Proof.
  intros Hd Hs. unfold then_result.
  destruct c as [v|e]; simpl; [destruct onF as [h|] | destruct onR as [h|]]; simpl;
    unfold call_handler; try destruct (hbody h _) as [out c']; simpl;
    unfold settle; norm; rewrite Hd, Hs; norm; by rewrite <- ?app_assoc.
Qed.

(** *** [then] on a pending promise *)

(** X1: A [then] registered on a pending promise runs nothing and queues nothing
    at registration. When the promise is then settled, exactly one job is
    queued; the next turn runs it: the handler chosen by the outcome is called
    once with the value or the error (a missing handler passes the outcome
    on), and the promise derived by [then] ends with what the handler ended
    with. *)
Theorem handler_registered_before_settlement_runs_once
    (st : rt) (p : pid) (pr : promise) (c : completion)
    (onF onR : option handler) :
  wf_rt st -> jobs st = [] ->
  heap st !! p = Some pr -> state pr = Pending -> reactions pr = [] ->
  let d := fst (promise_then p onF onR st) in
  let st1 := snd (promise_then p onF onR st) in
  let st2 := settle p c st1 in
  let r := then_result onF onR c in
  (trace st1 = trace st ∧ jobs st1 = [])
  ∧ jobs st2 = [(RThen onF onR d, c)]
  ∧ trace (run 1 st2) = trace st ++ EvSettle p c :: fst r ++ [EvSettle d (snd r)]
  ∧ jobs (run 1 st2) = []
  ∧ outcome_of d (run 1 st2) = Some (snd r).
Proof.
  intros Hwf Hj Hp Hs Hr.
  destruct (Hwf _ _ Hp) as [Hlt Hw].
  destruct pr as [s v e rs]. simpl in *. subst s rs.
  unfold wf_promise in Hw. simpl in Hw. destruct Hw as [-> ->].
  destruct st as [hp nx ag na js ts ck tr0]. simpl in *. subst js.
  unfold promise_then, alloc, subscribe. norm.
  rewrite lookup_insert_ne by lia. rewrite Hp. norm.
  split; [done |].
  unfold settle. norm. heap_lookup. norm.
  split; [done |].
  erewrite !run_step by (apply step_job; reflexivity).
  erewrite run_then_job; [| norm; by heap_lookup | done].
  unfold run. norm.
  split; [by rewrite <- app_assoc |]. split; [done |].
  unfold outcome_of. simpl. rewrite lookup_insert_eq. simpl.
  by destruct (snd (then_result onF onR c)).
Qed.

Lemma handler_registered_before_settlement_runs_once_witness :
  let st := snd (alloc init) in
  let st2 := settle 0 (Normal (VStr "Data loaded successfully!"))
               (snd (promise_then 0 (Some log_result) None st)) in
  trace (run 1 st2)
  = [EvSettle 0 (Normal (VStr "Data loaded successfully!"));
     EvCall "result => console.log(result)" (VStr "Data loaded successfully!");
     EvLog (VStr "Data loaded successfully!"); EvSettle 1 (Normal VUndef)].
Proof.
  intros st st2.
  refine (proj1 (proj2 (proj2
    (handler_registered_before_settlement_runs_once st 0 fresh_promise
       (Normal (VStr "Data loaded successfully!")) (Some log_result) None _ _ _ _ _)))).
  - exact (proj1 (keeps_alloc init wf_init)).
  - reflexivity.
  - reflexivity.
  - reflexivity.
  - reflexivity.
Defined.

(** *** [then] followed by [catch] *)

(** [myPromise] is the pattern with the delay, the value and the handlers of
    the source. *)
Lemma myPromise_is_then_catch (st : rt) :
  myPromise st
  = then_catch 1000 (Normal (VStr "Data loaded successfully!")) log_result log_error st.
Proof. reflexivity. Qed.

(** X2: [p.then(f).catch(g)], for any outcome of the timer callback and any two
    handlers: nothing is called before the timer fires; if the promise
    fulfils, [f] is called with the value, and [g] is called exactly when [f]
    throws, with what [f] threw; if the promise rejects, [f] is not called
    and [g] is called with the error. Each handler is called at most once,
    and the promise derived by [catch] ends with what the last handler called
    ended with. *)
Theorem catch_after_then_receives_every_error
    (ms : nat) (c : completion) (f g : handler) (st : rt) (n : nat) :
  quiescent st ->
  let p := fst (then_catch ms c f g st) in
  let st1 := snd (then_catch ms c f g st) in
  let r1 := then_result (Some f) None c in
  let r2 := then_result None (Some g) (snd r1) in
  let final := run (3 + n) st1 in
  (calls (trace st1) = calls (trace st) ∧ outcome_of p st1 = None)
  ∧ trace final
    = trace st ++ EvSettle p c :: fst r1 ++ EvSettle (S p) (snd r1)
               :: fst r2 ++ [EvSettle (S (S p)) (snd r2)]
  ∧ calls (trace final)
    = calls (trace st)
      ++ match c with
         | Normal v =>
             (hname f, v) :: match snd (hbody f v) with
                             | Normal _ => []
                             | Throw e => [(hname g, e)]
                             end
         | Throw e => [(hname g, e)]
         end
  ∧ outcome_of (S (S p)) final = Some (snd r2)
  ∧ quiescent final.
Proof.
  intros [Hj Ht]. destruct st as [hp nx ag na js ts ck tr0]. simpl in Hj, Ht. subst js ts.
  unfold then_catch, alloc. cbv beta iota zeta.
  erewrite promise_then_pending;
    [| unfold setTimeout; norm; by heap_lookup | unfold setTimeout; simpl; lia | done].
  cbv beta iota zeta.
  erewrite promise_then_pending;
    [| unfold setTimeout; norm; by heap_lookup | unfold setTimeout; simpl; lia | done].
  unfold setTimeout. norm.
  split; [split; [done |] |].
  { unfold outcome_of. simpl. by heap_lookup. }
  erewrite run_step by (apply step_timer; reflexivity). norm.
  rewrite run_callback_cb_of. unfold settle. norm. heap_lookup. norm.
  erewrite run_step by (apply step_job; reflexivity).
  erewrite run_then_job; [| norm; by heap_lookup | done]. norm.
  erewrite run_step by (apply step_job; reflexivity).
  erewrite run_then_job; [| norm; by heap_lookup | done]. norm.
  rewrite run_quiescent by (apply step_None_quiescent; by split). simpl.
  assert (Htr : ∀ A (a : list A) x b y c z,
            ((a ++ [x]) ++ b ++ [y]) ++ c ++ [z] = a ++ x :: b ++ y :: c ++ [z]).
  { intros. rewrite <- !app_assoc. simpl. by rewrite <- ?app_assoc. }
  rewrite Htr. split; [done |]. split.
  - unfold calls. rewrite omap_app. f_equal.
    unfold then_result. destruct c as [v|e]; simpl.
    + rewrite omap_app. simpl.
      assert (Hlogs : ∀ l, omap (fun e => match e with EvCall h arg => Some (h, arg) | _ => None end)
                             (map EvLog l) = []).
      { induction l; [done | simpl; done]. }
      rewrite Hlogs. simpl.
      destruct (snd (hbody f v)) as [u|e]; simpl; [done |].
      rewrite omap_app, Hlogs. done.
    + assert (Hlogs : ∀ l, omap (fun e => match e with EvCall h arg => Some (h, arg) | _ => None end)
                             (map EvLog l) = []).
      { induction l; [done | simpl; done]. }
      rewrite omap_app, Hlogs. done.
  - split; [| done]. unfold outcome_of. simpl. rewrite lookup_insert_eq. simpl.
    by destruct (snd (then_result None (Some g) (snd (then_result (Some f) None c)))).
Qed.

Lemma catch_after_then_receives_every_error_witness :
  calls (trace (run 3 (snd (myPromise init))))
  = [("result => console.log(result)"%string, VStr "Data loaded successfully!")].
Proof.
  refine (proj1 (proj2 (proj2
    (catch_after_then_receives_every_error 1000
       (Normal (VStr "Data loaded successfully!")) log_result log_error init 0 _)))).
  split; reflexivity.
Defined.

(** *** Chains of [then] *)

(** [chainPromise] is the chain on [5] with the three handlers of the
    source. *)
Lemma chainPromise_is_then_chain (st : rt) :
  snd (chainPromise st) = snd (resolved_then_chain (VNum 5) [add5; times2; log_num] st).
Proof. reflexivity. Qed.

Lemma linked_insert hs : ∀ (h : gmap nat promise) d q x,
  q < d -> linked h d hs -> linked (<[q := x]> h) d hs.
Proof.
  induction hs as [|h1 hs IH]; intros h d q x Hlt; simpl.
  - intros H. by rewrite lookup_insert_ne by lia.
  - intros [H1 H2]. split; [by rewrite lookup_insert_ne by lia |].
    apply IH; [lia | done].
Qed.

(** Registering the chain on a pending promise links the derived promises. *)
Lemma thens_spec hs : ∀ d st,
  heap st !! d = Some fresh_promise -> next st = S d ->
  ∃ h',
    thens d hs st
    = (d + length hs,
       Rt h' (S d + length hs) (aggs st) (next_agg st) (jobs st) (timers st)
          (clock st) (trace st))
    ∧ linked h' d hs
    ∧ ∀ q, q < d -> h' !! q = heap st !! q.
Proof.
  induction hs as [|h1 hs IH]; intros d st Hd Hn.
  - exists (heap st). simpl. rewrite !Nat.add_0_r, <- Hn. by destruct st.
  - cbn [thens].
    erewrite promise_then_pending; [| exact Hd | lia | done].
    cbv beta iota zeta. rewrite Hn.
    edestruct (IH (S d)) as (h' & -> & Hl & Hq); [| | ].
    + simpl. by heap_lookup.
    + done.
    + exists h'. simpl. split; [f_equal; [lia | f_equal; lia] |].
      split.
      * split; [| done]. rewrite Hq by lia. simpl. by heap_lookup.
      * intros q Hlt. rewrite Hq by lia. simpl. by heap_lookup.
Qed.

Lemma thread_cons d h hs c :
  thread d (h :: hs) c
  = (fst (then_result (Some h) None c)
       ++ EvSettle d (snd (then_result (Some h) None c))
       :: fst (thread (S d) hs (snd (then_result (Some h) None c))),
     snd (thread (S d) hs (snd (then_result (Some h) None c)))).
Proof.
  cbn [thread]. destruct (then_result (Some h) None c) as [ev c']. cbn [fst snd].
  by destruct (thread (S d) hs c').
Qed.

(** The jobs of a linked chain run one per turn, each queuing the next. *)
Lemma run_linked hs : ∀ h0 d c st,
  jobs st = [(RThen (Some h0) None d, c)] -> linked (heap st) d hs ->
  let st' := run (S (length hs)) st in
  trace st' = trace st ++ fst (thread d (h0 :: hs) c)
  ∧ jobs st' = [] ∧ timers st' = timers st
  ∧ outcome_of (d + length hs) st' = Some (snd (thread d (h0 :: hs) c)).
Proof.
  induction hs as [|h1 hs IH]; intros h0 d c st Hj Hl.
  - simpl in Hl. cbn [length]. rewrite thread_cons.
    rewrite (run_step 0 _ _ (step_job _ _ _ Hj)).
    erewrite run_then_job; [| exact Hl | done]. unfold run.
    destruct st as [hp nx ag na js ts ck tr0]. simpl.
    split; [done |]. split; [done |]. split; [done |].
    unfold outcome_of. simpl. rewrite Nat.add_0_r, lookup_insert_eq. simpl.
    by destruct (snd (then_result (Some h0) None c)).
  - destruct Hl as [Hd Hl]. cbn [length]. rewrite (thread_cons d h0).
    rewrite (run_step _ _ _ (step_job _ _ _ Hj)).
    erewrite run_then_job; [| exact Hd | done].
    destruct st as [hp nx ag na js ts ck tr0]. simpl in Hd, Hl, Hj. subst js. norm.
    match goal with |- context [run _ ?s] =>
      destruct (IH h1 (S d) (snd (then_result (Some h0) None c)) s)
        as (Ht & Hjobs & Htim & Ho)
    end.
    + reflexivity.
    + simpl. apply linked_insert; [lia | exact Hl].
    + simpl in Ht, Hjobs, Htim, Ho. rewrite Ht, Hjobs, Htim.
      replace (d + S (length hs)) with (S (d + length hs)) by lia. rewrite Ho.
      split; [by rewrite <- !app_assoc |]. done.
Qed.

Lemma resolved_then_chain_setup (v : val) (h0 : handler) (hs : list handler) (st : rt) :
  jobs st = [] ->
  ∃ h',
    resolved_then_chain v (h0 :: hs) st
    = (S (next st) + length hs,
       Rt h' (S (S (next st)) + length hs) (aggs st) (next_agg st)
          [(RThen (Some h0) None (S (next st)), Normal v)] (timers st) (clock st)
          (trace st ++ [EvSettle (next st) (Normal v)]))
    ∧ linked h' (S (next st)) hs.
Proof.
  intros Hj. destruct st as [hp nx ag na js ts ck tr0]. simpl in Hj. subst js.
  unfold resolved_then_chain, alloc. cbv beta iota zeta.
  erewrite settle_pending; [| simpl; apply lookup_insert_eq | done].
  cbn [thens].
  erewrite promise_then_settled;
    [| simpl; apply lookup_insert_eq | simpl; lia | reflexivity].
  cbv beta iota zeta. simpl.
  match goal with |- context [thens (S nx) hs ?s] =>
    destruct (thens_spec hs (S nx) s) as (h' & Heq & Hl & _)
  end.
  { simpl. apply lookup_insert_eq. }
  { done. }
  rewrite Heq. exists h'. split; [reflexivity | exact Hl].
Qed.

(** X3: A promise resolved in its executor and followed by a chain of [then]s,
    for any value and any handlers: registration calls no handler; after one
    turn per [then] the handlers have been called in order, each with what
    the one before it returned ([thread]); an error thrown by one of them
    skips the handlers after it and rejects the last promise; nothing is left
    queued. *)
Theorem then_chain_threads_values (v : val) (hs : list handler) (st : rt) :
  jobs st = [] ->
  let p := next st in
  let last := fst (resolved_then_chain v hs st) in
  let st1 := snd (resolved_then_chain v hs st) in
  let final := run (length hs) st1 in
  last = p + length hs
  ∧ trace st1 = trace st ++ [EvSettle p (Normal v)]
  ∧ trace final = trace st ++ EvSettle p (Normal v) :: fst (thread (S p) hs (Normal v))
  ∧ outcome_of last final = Some (snd (thread (S p) hs (Normal v)))
  ∧ jobs final = [] ∧ timers final = timers st.
Proof.
  intros Hj. destruct hs as [|h0 hs].
  - destruct st as [hp nx ag na js ts ck tr0]. simpl in Hj. subst js.
    unfold resolved_then_chain, alloc. cbv beta iota zeta.
    unfold settle. norm. heap_lookup. norm.
    unfold run, outcome_of. simpl. rewrite Nat.add_0_r, lookup_insert_eq.
    repeat split; done.
  - destruct (resolved_then_chain_setup v h0 hs st Hj) as (h' & -> & Hl).
    cbn [fst snd length].
    match goal with |- context [run _ ?s] =>
      set (s0 := s);
      destruct (run_linked hs h0 (S (next st)) (Normal v) s0) as (Ht & Hjobs & Htim & Ho)
    end.
    { reflexivity. }
    { exact Hl. }
    rewrite Ht, Hjobs, Htim, Ho. unfold s0. simpl. rewrite <- app_assoc. simpl.
    split; [lia |]. done.
Qed.

Lemma then_chain_threads_values_witness :
  outcome_of 3 (run 3 (snd (resolved_then_chain (VNum 5) [add5; times2; log_num] init)))
  = Some (Normal VUndef)
  ∧ console (run 3 (snd (resolved_then_chain (VNum 5) [add5; times2; log_num] init)))
    = [VNum 20].
Proof.
  pose proof (then_chain_threads_values (VNum 5) [add5; times2; log_num] init eq_refl)
    as (_ & _ & Ht & Ho & _).
  split; [exact Ho |]. unfold console.
  etrans; [exact (f_equal _ Ht) | reflexivity].
Defined.

(** ** Handlers registered after settlement *)

(** *** What a turn leaves alone *)

Lemma filter_none {A} (P : A -> Prop) `{∀ x, Decision (P x)} (l : list A) :
  (∀ x, x ∈ l -> ¬ P x) -> filter P l = [].
Proof.
  induction l as [|x l IH]; intros Hl; [done |].
  rewrite filter_cons. destruct (decide (P x)) as [HP|_].
  - destruct (Hl x); [by left | done].
  - apply IH. intros y Hy. apply Hl. by right.
Qed.

Lemma filter_none_inv {A} (P : A -> Prop) `{∀ x, Decision (P x)} (l : list A) x :
  filter P l = [] -> x ∈ l -> ¬ P x.
Proof.
  intros Hf Hx HP. assert (Hin : x ∈ filter P l) by (by apply list_elem_of_filter).
  rewrite Hf in Hin. by apply elem_of_nil in Hin.
Qed.

Lemma undisturbed_refl q st : undisturbed q st st.
Proof.
  split; [lia |]. intros _ H. split; [done |]. split; [done |].
  exists []. by rewrite app_nil_r.
Qed.

Lemma undisturbed_trans q st1 st2 st3 :
  undisturbed q st1 st2 -> undisturbed q st2 st3 -> undisturbed q st1 st3.
Proof.
  intros [Hn12 H12] [Hn23 H23]. split; [lia |]. intros Hq Hh.
  destruct H12 as (Hh2 & He2 & new2 & Hj2 & Hf2); [lia | done |].
  destruct H23 as (Hh3 & He3 & new3 & Hj3 & Hf3); [lia | done |].
  split; [done |]. split; [congruence |].
  exists (new2 ++ new3). split; [by rewrite Hj3, Hj2, app_assoc |].
  by rewrite filter_app, Hf2, Hf3.
Qed.

(** A state that differs in trace or clock only. *)
Lemma undisturbed_same q st st' :
  heap st' = heap st -> next st' = next st -> aggs st' = aggs st ->
  timers st' = timers st -> jobs st' = jobs st ->
  undisturbed q st st'.
Proof.
  intros Hh Hn Ha Ht Hj. split; [lia |]. intros _ H.
  split; [| split; [by rewrite Hh |]].
  - unfold held. by rewrite Hh, Ha, Ht.
  - exists []. by rewrite app_nil_r.
Qed.

Lemma undisturbed_alloc q st : undisturbed q st (snd (alloc st)).
Proof.
  split; [simpl; lia |]. simpl. intros Hq Hh. split; [| split].
  - intros [(p & pr & r & Hp & Hr & Hin) | [H | H]]; simpl in *.
    + destruct (decide (p = next st)) as [->|Hne].
      * rewrite lookup_insert_eq in Hp. injection Hp as <-. by apply elem_of_nil in Hr.
      * rewrite lookup_insert_ne in Hp by done. apply Hh. left. eauto 10.
    + apply Hh. right. by left.
    + apply Hh. right. by right.
  - apply lookup_insert_ne. lia.
  - exists []. by rewrite app_nil_r.
Qed.

Lemma undisturbed_settle q p c st : p ≠ q -> undisturbed q st (settle p c st).
Proof.
  intros Hpq. unfold settle.
  destruct (heap st !! p) as [pr|] eqn:Hp; [| apply undisturbed_refl].
  destruct (state pr) eqn:Hs; try apply undisturbed_refl.
  split; [simpl; lia |]. simpl. intros Hq Hh. split; [| split].
  - intros [(p' & pr' & r & Hp' & Hr & Hin) | [H | H]]; simpl in *.
    + destruct (decide (p' = p)) as [->|Hne].
      * rewrite lookup_insert_eq in Hp'. injection Hp' as <-.
        unfold settle_promise in Hr. rewrite Hs in Hr.
        destruct c; by apply elem_of_nil in Hr.
      * rewrite lookup_insert_ne in Hp' by done. apply Hh. left. eauto 10.
    + apply Hh. right. by left.
    + apply Hh. right. by right.
  - by apply lookup_insert_ne.
  - eexists. split; [done |]. apply filter_none.
    intros [r c'] [r' [[= <- <-] Hr]]%list_elem_of_fmap Hin. simpl in Hin.
    apply Hh. left. eauto 10.
Qed.

Lemma undisturbed_subscribe q p r st :
  p ≠ q -> q ∉ reaction_targets r -> undisturbed q st (subscribe p r st).
Proof.
  intros Hpq Hr. unfold subscribe.
  destruct (heap st !! p) as [pr|] eqn:Hp; [| apply undisturbed_refl].
  destruct (outcome pr) as [c|] eqn:Ho.
  - split; [simpl; lia |]. simpl. intros _ Hh. split; [done |]. split; [done |].
    exists [(r, c)]. split; [done |]. apply filter_none.
    intros j ->%list_elem_of_singleton. done.
  - split; [simpl; lia |]. simpl. intros _ Hh. split; [| split].
    + intros [(p' & pr' & r' & Hp' & Hr' & Hin) | [H | H]]; simpl in *.
      * destruct (decide (p' = p)) as [->|Hne].
        -- rewrite lookup_insert_eq in Hp'. injection Hp' as <-. simpl in Hr'.
           apply elem_of_app in Hr' as [Hr'| ->%list_elem_of_singleton]; [| done].
           apply Hh. left. eauto 10.
        -- rewrite lookup_insert_ne in Hp' by done. apply Hh. left. eauto 10.
      * apply Hh. right. by left.
      * apply Hh. right. by right.
    + by apply lookup_insert_ne.
    + exists []. by rewrite app_nil_r.
Qed.

Lemma undisturbed_setTimeout q c ms st :
  callback_target c ≠ q -> undisturbed q st (setTimeout c ms st).
Proof.
  intros Hc. split; [simpl; lia |]. simpl. intros _ Hh. split; [| split; [done |]].
  - intros [H | [(t & Ht & Htq) | H]]; simpl in *.
    + apply Hh. by left.
    + apply elem_of_app in Ht as [Ht| ->%list_elem_of_singleton]; [| done].
      apply Hh. right. left. eauto.
    + apply Hh. right. by right.
  - exists []. by rewrite app_nil_r.
Qed.

Lemma undisturbed_intro q st st' :
  next st <= next st' ->
  (q < next st ∨ next st' <= q -> ¬ held q st -> undisturbed q st st') ->
  undisturbed q st st'.
Proof.
  intros Hn H. split; [done |]. intros Hq Hh. by apply (H Hq Hh).
Qed.

Lemma next_settle p c st : next (settle p c st) = next st.
Proof.
  unfold settle. destruct (heap st !! p) as [pr|]; [| done]. by destruct (state pr).
Qed.

Lemma next_subscribe p r st : next (subscribe p r st) = next st.
Proof.
  unfold subscribe. destruct (heap st !! p) as [pr|]; [| done]. by destruct (outcome pr).
Qed.

Lemma undisturbed_promise_then q p onF onR st :
  p ≠ q -> undisturbed q st (snd (promise_then p onF onR st)).
Proof.
  intros Hpq. unfold promise_then, alloc. simpl.
  apply undisturbed_intro; [rewrite next_subscribe; simpl; lia |].
  rewrite next_subscribe. simpl. intros Hq _.
  eapply undisturbed_trans; [apply (undisturbed_alloc q st) |].
  apply undisturbed_subscribe; [done |].
  simpl. intros ->%list_elem_of_singleton. lia.
Qed.

Lemma undisturbed_update_agg q a ag vs n st :
  aggs st !! a = Some ag ->
  undisturbed q st (set_aggs (<[a := AllRecord vs n (capability ag)]> (aggs st)) st).
Proof.
  intros Ha. split; [simpl; lia |]. simpl. intros _ Hh. split; [| split; [done |]].
  - intros [H | [H | (a' & ag' & Ha' & Hc)]]; simpl in *.
    + apply Hh. by left.
    + apply Hh. right. by left.
    + apply Hh. right. right. destruct (decide (a' = a)) as [->|Hne].
      * rewrite lookup_insert_eq in Ha'. injection Ha' as <-. simpl in Hc. eauto.
      * rewrite lookup_insert_ne in Ha' by done. eauto.
  - exists []. by rewrite app_nil_r.
Qed.

Lemma undisturbed_resolve_element q a i x st :
  undisturbed q st (resolve_element a i x st).
Proof.
  unfold resolve_element. destruct (aggs st !! a) as [ag|] eqn:Ha; [| apply undisturbed_refl].
  destruct (values ag !! i) as [[?|]|]; try apply undisturbed_refl.
  simpl. destruct (pred (remaining ag)); [| by apply undisturbed_update_agg].
  apply undisturbed_intro; [rewrite next_settle; simpl; lia |].
  intros _ Hh. eapply undisturbed_trans; [by apply undisturbed_update_agg |].
  apply undisturbed_settle. intros Hc. apply Hh. right. right. eauto.
Qed.

Lemma undisturbed_call_step q s st : undisturbed q st (snd (call_step s st)).
Proof.
  unfold call_step, alloc. simpl.
  apply undisturbed_intro; [rewrite next_subscribe; simpl; lia |].
  rewrite next_subscribe. simpl. intros Hq _.
  eapply undisturbed_trans; [apply (undisturbed_alloc q st) |].
  eapply undisturbed_trans; [apply (undisturbed_alloc q (snd (alloc st))) |].
  unfold alloc. simpl.
  eapply undisturbed_trans; [| apply undisturbed_subscribe].
  - apply undisturbed_setTimeout. simpl. lia.
  - lia.
  - simpl. intros ->%list_elem_of_singleton. lia.
Qed.

Lemma next_call_step s st : next (snd (call_step s st)) = S (S (next st)).
Proof. unfold call_step, alloc. simpl. by rewrite next_subscribe. Qed.

Lemma fst_call_step s st : fst (call_step s st) = next st.
Proof. done. Qed.

Lemma undisturbed_chain q self k steps st :
  self ≠ q -> undisturbed q st (chain self k steps st).
Proof.
  intros Hself. destruct steps as [|s rest]; [by apply undisturbed_settle |].
  unfold chain.
  pose proof (undisturbed_call_step q s st) as H1.
  pose proof (next_call_step s st) as Hn. pose proof (fst_call_step s st) as Hf.
  destruct (call_step s st) as [p st1]. simpl in H1, Hn, Hf. subst p.
  apply undisturbed_intro; [rewrite next_subscribe; simpl; lia |].
  rewrite next_subscribe. simpl. rewrite Hn. intros Hq _.
  eapply undisturbed_trans; [exact H1 |].
  eapply undisturbed_trans; [| apply undisturbed_subscribe].
  - by apply undisturbed_same.
  - lia.
  - simpl. by intros ->%list_elem_of_singleton.
Qed.

Lemma undisturbed_call_handler q h arg d st :
  d ≠ q -> undisturbed q st (call_handler h arg d st).
Proof.
  intros Hd. unfold call_handler. destruct (hbody h arg) as [out c].
  eapply undisturbed_trans; [| by apply undisturbed_settle].
  by apply undisturbed_same.
Qed.

Lemma undisturbed_resume q f c st :
  q ∉ reaction_targets (RAwait f) -> undisturbed q st (resume f c st).
Proof.
  intros Hf.
  assert (Hself : match f with FStep self _ | FChain self _ _ => self end ≠ q).
  { destruct f; simpl in Hf; intros <-; apply Hf; by left. }
  destruct f, c; simpl in *; try by apply undisturbed_settle.
  eapply undisturbed_trans; [| by apply undisturbed_chain].
  by apply undisturbed_same.
Qed.

Lemma undisturbed_run_job q j st :
  q ∉ reaction_targets j.1 -> undisturbed q st (run_job j st).
Proof.
  destruct j as [[onF onR d | a i | f] c]; simpl; intros Hj.
  - assert (d ≠ q) by (intros <-; apply Hj; by left).
    destruct c, onF, onR; auto using undisturbed_call_handler, undisturbed_settle.
  - destruct c; [apply undisturbed_resolve_element |].
    destruct (aggs st !! a) as [ag|] eqn:Ha; [| apply undisturbed_refl].
    apply undisturbed_intro; [rewrite next_settle; lia |].
    intros _ Hh. apply undisturbed_settle. intros Hc. apply Hh. right. right. eauto.
  - by apply undisturbed_resume.
Qed.

Lemma undisturbed_run_callback q c st :
  callback_target c ≠ q -> undisturbed q st (run_callback c st).
Proof.
  intros Hc. destruct c; simpl in *; try by apply undisturbed_settle.
  unfold students_callback. destruct (element _ _); [| apply undisturbed_refl].
  destruct (5 <? _); by apply undisturbed_settle.
Qed.

(** One turn of the event loop leaves alone a promise that nothing is about
    to settle. *)
Lemma step_unheld q st st' :
  step st = Some st' -> q < next st ∨ next st' <= q ->
  ¬ held q st -> jobs_for q st = [] ->
  next st <= next st'
  ∧ ¬ held q st' ∧ jobs_for q st' = [] ∧ heap st' !! q = heap st !! q.
Proof.
  unfold step, jobs_for. intros Hstep Hq Hh Hj.
  destruct (jobs st) as [|j js] eqn:Hjobs.
  - destruct (pick_timer (timers st)) as [[t rest]|] eqn:Hpick; [| done].
    injection Hstep as <-.
    destruct (pick_timer_spec _ _ _ Hpick) as (l1 & l2 & Hts & -> & _).
    match goal with |- context [run_callback _ ?s] => set (st0 := s) end.
    assert (Hh0 : ¬ held q st0).
    { intros [H | [(u & Hu & Huq) | H]]; simpl in *.
      - apply Hh. by left.
      - apply Hh. right. left. exists u. split; [| done]. rewrite Hts.
        apply elem_of_app in Hu as [?|?]; apply elem_of_app; [by left | right; by right].
      - apply Hh. right. by right. }
    assert (Hc : callback_target (cb t) ≠ q).
    { intros Hc. apply Hh. right. left. exists t. split; [| done].
      rewrite Hts. apply elem_of_app. right. by left. }
    destruct (undisturbed_run_callback q (cb t) st0 Hc) as [Hn H].
    destruct H as (Hh' & He & new & Hnew & Hf); [done | done |].
    split; [done |]. split; [done |]. split; [| done].
    rewrite Hnew. simpl. done.
  - injection Hstep as <-. rewrite filter_cons in Hj.
    destruct (decide (q ∈ reaction_targets j.1)) as [|Hnj]; [done |].
    destruct (undisturbed_run_job q j (set_jobs js st) Hnj) as [Hn H].
    destruct H as (Hh' & He & new & Hnew & Hf); [done | done |].
    split; [done |]. split; [done |]. split; [| done].
    rewrite Hnew. simpl. by rewrite filter_app, Hj, Hf.
Qed.

Lemma run_unheld q : ∀ n st,
  q < next st -> ¬ held q st -> jobs_for q st = [] ->
  q < next (run n st)
  ∧ ¬ held q (run n st) ∧ jobs_for q (run n st) = []
  ∧ heap (run n st) !! q = heap st !! q.
Proof.
  induction n as [|n IH]; intros st Hq Hh Hj; [done |].
  destruct (step st) as [st'|] eqn:Hstep.
  - rewrite (run_step n st st' Hstep).
    destruct (step_unheld q st st' Hstep) as (Hn & Hh' & Hj' & He); [by left | done | done |].
    destruct (IH st') as (H1 & H2 & H3 & H4); [lia | done | done |].
    repeat split; try done. congruence.
  - rewrite run_quiescent by done. done.
Qed.

Lemma held_alloc q st : held q (snd (alloc st)) -> held q st.
Proof.
  intros [(p & pr & r & Hp & Hr & Hin) | [H | H]]; simpl in *.
  - destruct (decide (p = next st)) as [->|Hne].
    + rewrite lookup_insert_eq in Hp. injection Hp as <-. by apply elem_of_nil in Hr.
    + rewrite lookup_insert_ne in Hp by done. left. eauto 10.
  - right. by left.
  - right. by right.
Qed.

(** While the job [job] for [q] waits behind the jobs [js], a turn of the
    loop runs the first of [js] and leaves [q] and [job] alone. *)
Lemma run_waiting q job : ∀ i js st extra,
  jobs st = js ++ job :: extra -> i <= length js ->
  q < next st -> ¬ held q st ->
  filter (fun j => q ∈ reaction_targets j.1) js = [] ->
  filter (fun j => q ∈ reaction_targets j.1) extra = [] ->
  ∃ extra',
    jobs (run i st) = drop i js ++ job :: extra'
    ∧ q < next (run i st) ∧ ¬ held q (run i st)
    ∧ filter (fun j => q ∈ reaction_targets j.1) (drop i js) = []
    ∧ filter (fun j => q ∈ reaction_targets j.1) extra' = []
    ∧ heap (run i st) !! q = heap st !! q.
Proof.
  induction i as [|i IH]; intros js st extra Hjobs Hi Hq Hh Hjs Hex.
  { exists extra. by rewrite drop_0. }
  destruct js as [|j js]; [simpl in Hi; lia |]. simpl in Hi, Hjobs.
  rewrite (run_step i st _ (step_job st _ _ Hjobs)).
  rewrite filter_cons in Hjs.
  destruct (decide (q ∈ reaction_targets j.1)) as [|Hnj]; [done |].
  destruct (undisturbed_run_job q j (set_jobs (js ++ job :: extra) st) Hnj) as [Hn H].
  destruct H as (Hh' & He & new & Hnew & Hf); [by left | done |].
  simpl in Hn, Hnew, He.
  destruct (IH js (run_job j (set_jobs (js ++ job :: extra) st)) (extra ++ new))
    as (extra' & H1 & H2 & H3 & H4 & H5 & H6).
  - by rewrite Hnew, <- app_assoc.
  - lia.
  - lia.
  - done.
  - done.
  - by rewrite filter_app, Hex, Hf.
  - exists extra'. simpl. repeat split; try done. congruence.
Qed.

Lemma closed_init : closed init.
Proof.
  intros q _. split; [| done].
  intros [(p & pr & r & Hp & _) | [(t & Ht & _) | (a & ag & Ha & _)]]; simpl in *.
  - by rewrite lookup_empty in Hp.
  - by apply elem_of_nil in Ht.
  - by rewrite lookup_empty in Ha.
Qed.

Lemma closed_by st st' :
  (∀ q, next st' <= q -> undisturbed q st st') -> closed st -> closed st'.
Proof.
  intros H Hc q Hq. destruct (H q Hq) as [Hn Hu].
  destruct (Hc q) as [Hh Hj]; [lia |].
  destruct Hu as (Hh' & _ & new & Hnew & Hf); [by right | done |].
  split; [done |]. unfold jobs_for in *. by rewrite Hnew, filter_app, Hj, Hf.
Qed.

Lemma closed_alloc st : closed st -> closed (snd (alloc st)).
Proof. apply closed_by. intros q _. apply undisturbed_alloc. Qed.

Lemma closed_settle p c st : p < next st -> closed st -> closed (settle p c st).
Proof.
  intros Hp. apply closed_by. intros q Hq. rewrite next_settle in Hq.
  apply undisturbed_settle. lia.
Qed.

Lemma closed_setTimeout c ms st :
  callback_target c < next st -> closed st -> closed (setTimeout c ms st).
Proof.
  intros Hc. apply closed_by. intros q Hq. simpl in Hq.
  apply undisturbed_setTimeout. lia.
Qed.

Lemma closed_promise_then p onF onR st :
  p < next st -> closed st -> closed (snd (promise_then p onF onR st)).
Proof.
  intros Hp. apply closed_by. intros q Hq.
  apply undisturbed_promise_then.
  unfold promise_then, alloc in Hq. simpl in Hq. rewrite next_subscribe in Hq.
  simpl in Hq. lia.
Qed.

Lemma undisturbed_all_elements q a ps : ∀ i st,
  Forall (fun p => p ≠ q) ps -> undisturbed q st (all_elements a i ps st).
Proof.
  induction ps as [|p ps IH]; intros i st Hps; [apply undisturbed_refl |].
  apply Forall_cons in Hps as [Hp Hps]. simpl.
  eapply undisturbed_trans; [| by apply IH].
  eapply undisturbed_trans; [| by apply undisturbed_subscribe, not_elem_of_nil].
  destruct (aggs st !! a) as [ag|] eqn:Ha; [| apply undisturbed_refl].
  by apply undisturbed_update_agg.
Qed.

Lemma next_all_elements a ps : ∀ i st, next (all_elements a i ps st) = next st.
Proof.
  induction ps as [|p ps IH]; intros i st; [done |].
  simpl. rewrite IH, next_subscribe. by destruct (aggs st !! a).
Qed.

Lemma next_promise_all ps st : next (snd (promise_all ps st)) = S (next st).
Proof.
  unfold promise_all, alloc. simpl.
  match goal with |- context [all_elements ?a ?i ?l ?s] =>
    pose proof (next_all_elements a l i s) as Hk;
    set (st3 := all_elements a i l s) in *
  end.
  simpl in Hk. destruct (aggs st3 !! next_agg st) as [ag|]; [| done].
  simpl. destruct (pred (remaining ag)); [by rewrite next_settle | done].
Qed.

Lemma undisturbed_new_agg q a r st :
  r ≠ q ->
  undisturbed q st
    (Rt (heap st) (next st) (<[a := AllRecord [] 1 r]> (aggs st)) (S a)
        (jobs st) (timers st) (clock st) (trace st)).
Proof.
  intros Hr. split; [simpl; lia |]. simpl. intros _ Hh. split; [| split; [done |]].
  - intros [H | [H | (a' & ag' & Ha' & Hc)]]; simpl in *.
    + apply Hh. by left.
    + apply Hh. right. by left.
    + destruct (decide (a' = a)) as [->|Hne].
      * rewrite lookup_insert_eq in Ha'. injection Ha' as <-. simpl in Hc. done.
      * rewrite lookup_insert_ne in Ha' by done. apply Hh. right. right. eauto.
  - exists []. by rewrite app_nil_r.
Qed.

Lemma undisturbed_all_done q a r st :
  r ≠ q ->
  undisturbed q st
    (match aggs st !! a with
     | Some ag =>
         let n := pred (remaining ag) in
         let st4 := set_aggs (<[a := AllRecord (values ag) n (capability ag)]> (aggs st)) st in
         if n is 0
         then settle r (Normal (VArr (from_option id VUndef <$> values ag))) st4
         else st4
     | None => st
     end).
Proof.
  intros Hr. destruct (aggs st !! a) as [ag|] eqn:Ha; [| apply undisturbed_refl].
  simpl. destruct (pred (remaining ag)); [| by apply undisturbed_update_agg].
  eapply undisturbed_trans; [by apply undisturbed_update_agg |].
  by apply undisturbed_settle.
Qed.

Lemma undisturbed_promise_all q ps st :
  Forall (fun p => p ≠ q) ps -> undisturbed q st (snd (promise_all ps st)).
Proof.
  intros Hps. apply undisturbed_intro; [rewrite next_promise_all; lia |].
  rewrite next_promise_all. intros Hq _.
  assert (Hr : next st ≠ q) by lia.
  unfold promise_all, alloc. cbv beta iota zeta. unfold snd at 1.
  eapply undisturbed_trans; [| by apply undisturbed_all_done].
  eapply undisturbed_trans; [| by apply undisturbed_all_elements].
  eapply undisturbed_trans; [apply (undisturbed_alloc q st) |].
  exact (undisturbed_new_agg q (next_agg st) (next st) (snd (alloc st)) Hr).
Qed.

Lemma closed_promise_all ps st :
  Forall (fun p => p < next st) ps -> closed st -> closed (snd (promise_all ps st)).
Proof.
  intros Hps. apply closed_by. intros q Hq. rewrite next_promise_all in Hq.
  apply undisturbed_promise_all. eapply Forall_impl; [exact Hps |]. simpl. intros; lia.
Qed.

Lemma closed_runSequential steps st :
  closed st -> closed (snd (runSequential steps st)).
Proof.
  intros Hc. unfold runSequential, alloc. simpl.
  apply closed_alloc in Hc. revert Hc. unfold alloc. simpl.
  apply closed_by. intros q Hq. apply undisturbed_chain.
  match type of Hq with next (chain ?self ?k ?l ?s) <= _ =>
    destruct (undisturbed_chain (S self) self k l s) as [Hn _]; [lia |]
  end.
  simpl in Hn. lia.
Qed.

Lemma closed_step st st' : closed st -> step st = Some st' -> closed st'.
Proof.
  intros Hc Hstep q Hq.
  assert (Hn : next st <= next st').
  { revert Hstep. unfold step. destruct (jobs st) as [|j js].
    - destruct (pick_timer (timers st)) as [[t rest]|]; [| done]. intros [= <-].
      destruct (undisturbed_run_callback (S (callback_target (cb t))) (cb t)
        (Rt (heap st) (next st) (aggs st) (next_agg st) [] rest
            (Nat.max (clock st) (fire_at t)) (trace st))) as [Hn _]; [lia | done].
    - intros [= <-].
      destruct (undisturbed_run_job (S (list_max (reaction_targets j.1))) j (set_jobs js st))
        as [Hn _]; [| done].
      intros Hin. pose proof (list_max_le (reaction_targets j.1) (list_max (reaction_targets j.1))) as [Hle _].
      specialize (Hle (Nat.le_refl _)). rewrite Forall_forall in Hle.
      specialize (Hle _ Hin). lia. }
  destruct (Hc q) as [Hh Hj]; [lia |].
  destruct (step_unheld q st st' Hstep) as (_ & Hh' & Hj' & _); [by right | done | done |].
  done.
Qed.

Lemma closed_run n : ∀ st, closed st -> closed (run n st).
Proof.
  induction n as [|n IH]; intros st Hc; [done |].
  destruct (step st) as [st'|] eqn:Hstep.
  - rewrite (run_step n st st' Hstep). apply IH. by eapply closed_step.
  - by rewrite run_quiescent.
Qed.


Lemma sound_init : sound init.
Proof. split; [apply wf_init | apply closed_init]. Qed.

Lemma sound_alloc st : sound st -> sound (snd (alloc st)).
Proof.
  intros [Hwf Hc]. split; [exact (proj1 (keeps_alloc st Hwf)) | by apply closed_alloc].
Qed.

Lemma sound_settle p c st : sound st -> sound (settle p c st).
Proof.
  intros [Hwf Hc]. split; [exact (proj1 (keeps_settle p c st Hwf)) |].
  destruct (heap st !! p) as [pr|] eqn:Hp.
  - apply closed_settle; [| done]. by destruct (Hwf _ _ Hp).
  - unfold settle. by rewrite Hp.
Qed.

Lemma sound_setTimeout c ms st :
  callback_target c < next st -> sound st -> sound (setTimeout c ms st).
Proof.
  intros Hlt [Hwf Hc]. split; [| by apply closed_setTimeout].
  refine (proj1 (keeps_same_heap st _ _ _ _ Hwf)); done.
Qed.

Lemma next_promise_then p onF onR st :
  next (snd (promise_then p onF onR st)) = S (next st).
Proof. unfold promise_then, alloc. simpl. by rewrite next_subscribe. Qed.

Lemma sound_promise_then p onF onR st :
  p < next st -> sound st -> sound (snd (promise_then p onF onR st)).
Proof.
  intros Hlt [Hwf Hc].
  split; [exact (proj1 (keeps_promise_then p onF onR st Hwf)) | by apply closed_promise_then].
Qed.

Lemma sound_promise_all ps st :
  Forall (fun p => p < next st) ps -> sound st -> sound (snd (promise_all ps st)).
Proof.
  intros Hps [Hwf Hc].
  split; [exact (proj1 (keeps_promise_all ps st Hwf)) | by apply closed_promise_all].
Qed.

Lemma sound_runSequential steps st : sound st -> sound (snd (runSequential steps st)).
Proof.
  intros [Hwf Hc]. split; [| by apply closed_runSequential].
  unfold runSequential.
  refine (proj1 (keeps_trans _ _ _ (keeps_alloc st) (keeps_chain _ _ _ _) Hwf)).
Qed.

Lemma sound_run n st : sound st -> sound (run n st).
Proof.
  intros [Hwf Hc]. split; [exact (proj1 (keeps_run n st Hwf)) | by apply closed_run].
Qed.

Lemma sound_myPromise st : sound st -> sound (snd (myPromise st)).
Proof.
  intros Hs.
  set (st2 := setTimeout (CbResolve (next st) (VStr "Data loaded successfully!")) 1000
                (snd (alloc st))).
  set (r1 := promise_then (next st) (Some log_result) None st2).
  change (snd (myPromise st)) with (snd (promise_then (fst r1) None (Some log_error) (snd r1))).
  assert (H2 : sound st2).
  { apply sound_setTimeout; [simpl; lia | by apply sound_alloc]. }
  assert (H3 : sound (snd r1)) by (apply sound_promise_then; [simpl; lia | done]).
  apply sound_promise_then; [| done].
  unfold r1. rewrite next_promise_then. simpl. lia.
Qed.

Lemma sound_thens hs : ∀ p st, p < next st -> sound st -> sound (snd (thens p hs st)).
Proof.
  induction hs as [|h hs IH]; intros p st Hlt Hs; [done |].
  cbn [thens].
  pose proof (sound_promise_then p (Some h) None st Hlt Hs) as H1.
  pose proof (next_promise_then p (Some h) None st) as Hn.
  assert (Hf : fst (promise_then p (Some h) None st) = next st) by done.
  destruct (promise_then p (Some h) None st) as [d st1]. simpl in *. subst d.
  apply IH; [lia | done].
Qed.

Lemma sound_chainPromise st : sound st -> sound (snd (chainPromise st)).
Proof.
  intros Hs. rewrite chainPromise_is_then_chain.
  unfold resolved_then_chain, alloc. cbv beta iota zeta.
  apply sound_thens; [rewrite next_settle; simpl; lia |].
  apply sound_settle. by apply (sound_alloc st).
Qed.

Lemma level91_settled_sound : sound level91_settled.
Proof.
  unfold level91_settled, alloc. cbv beta iota zeta.
  apply sound_settle.
  apply (sound_alloc (snd (chainPromise (snd (myPromise init))))).
  apply sound_chainPromise, sound_myPromise, sound_init.
Qed.

(** *** The handler runs once *)

(** C6: on a promise that is already settled, [then] registered afterwards
    runs the appropriate handler exactly once, with the stored value or
    error, in whatever state the runtime is: other jobs may be queued and
    timers outstanding. Nothing runs inside the registration call and
    nothing is stored on the promise; exactly one job for the promise [d]
    that [then] derives is queued, behind the [k] jobs already there. While
    those run, that job stays the only one for [d] and [d] stays pending.
    Turn [k + 1] calls the handler, once, with the stored value or error,
    and settles [d] with what the handler ended with. From then on no job
    and no stored reaction for [d] exists at any turn, so the handler of this
    registration cannot run again. [wf_rt] and [closed] hold in every state
    a script reaches ([sound_init], [sound_run] and the lemmas between
    them). *)
Theorem handler_registered_after_settlement_runs_once
    (st : rt) (p : pid) (c : completion) (onF onR : option handler)
    (h : handler) (i n : nat) :
  wf_rt st -> closed st -> outcome_of p st = Some c ->
  match c with Normal _ => onF | Throw _ => onR end = Some h ->
  let d := fst (promise_then p onF onR st) in
  let st1 := snd (promise_then p onF onR st) in
  let k := length (jobs st) in
  let arg := match c with Normal v => v | Throw e => e end in
  (trace st1 = trace st ∧ heap st1 !! p = heap st !! p
   ∧ jobs st1 = jobs st ++ [(RThen onF onR d, c)])
  ∧ (i <= k ->
       jobs_for d (run i st1) = [(RThen onF onR d, c)]
       ∧ ¬ held d (run i st1) ∧ outcome_of d (run i st1) = None)
  ∧ trace (run (S k) st1)
    = trace (run k st1) ++ EvCall (hname h) arg :: map EvLog (fst (hbody h arg))
                        ++ [EvSettle d (snd (hbody h arg))]
  ∧ (jobs_for d (run (S k + n) st1) = [] ∧ ¬ held d (run (S k + n) st1)
     ∧ outcome_of d (run (S k + n) st1) = Some (snd (hbody h arg))).
Proof.
  intros Hwf Hcl Ho Hsel d st1 k arg. unfold outcome_of in Ho.
  destruct (heap st !! p) as [pr|] eqn:Hp; [| done]. simpl in Ho.
  destruct (Hwf _ _ Hp) as [Hlt _].
  assert (Heq : promise_then p onF onR st
                = (next st,
                   Rt (<[next st := fresh_promise]> (heap st)) (S (next st)) (aggs st)
                      (next_agg st) (jobs st ++ [(RThen onF onR (next st), c)])
                      (timers st) (clock st) (trace st))).
  { apply (promise_then_settled p onF onR st pr c); [done | lia | done]. }
  subst d st1. rewrite Heq. simpl fst. simpl snd.
  set (job := (RThen onF onR (next st), c)).
  set (st1 := Rt _ _ _ _ _ _ _ _).
  destruct (Hcl (next st)) as [Hh0 Hj0]; [lia |].
  assert (Hh1 : ¬ held (next st) st1).
  { intros H. apply Hh0, held_alloc. exact H. }
  assert (Hd1 : heap st1 !! next st = Some fresh_promise) by apply lookup_insert_eq.
  assert (Hwait := fun i' => run_waiting (next st) job i' (jobs st) st1 [] eq_refl).
  assert (Hjob : next st ∈ reaction_targets job.1) by (by left).
  split.
  { split; [done |]. split; [| done]. simpl. by rewrite lookup_insert_ne by lia. }
  split.
  { intros Hi.
    destruct (Hwait i Hi) as (extra & Hjobs & Hn & Hh & Hf1 & Hf2 & He);
      [simpl; lia | done | done | done |].
    split; [| split; [done |]].
    - unfold jobs_for. rewrite Hjobs, filter_app, Hf1, filter_cons, Hf2.
      by destruct (decide (next st ∈ reaction_targets job.1)).
    - unfold outcome_of. by rewrite He, Hd1. }
  destruct (Hwait k (Nat.le_refl _)) as (extra & Hjobs & Hn & Hh & _ & Hf2 & He);
    [simpl; lia | done | done | done |].
  unfold k in Hjobs at 2. rewrite drop_all in Hjobs. simpl in Hjobs.
  rewrite Hd1 in He.
  assert (Hres : then_result onF onR c
                 = (EvCall (hname h) arg :: map EvLog (fst (hbody h arg)),
                    snd (hbody h arg))).
  { unfold then_result, arg. by rewrite Hsel. }
  assert (Hturn : run (S k) st1
    = Rt (<[next st := settle_promise (snd (hbody h arg)) fresh_promise]>
            (heap (run k st1)))
         (next (run k st1)) (aggs (run k st1)) (next_agg (run k st1))
         extra (timers (run k st1)) (clock (run k st1))
         (trace (run k st1) ++ EvCall (hname h) arg :: map EvLog (fst (hbody h arg))
                            ++ [EvSettle (next st) (snd (hbody h arg))])).
  { replace (S k) with (k + 1) by lia. rewrite run_add.
    rewrite (run_step 0 _ _ (step_job _ _ _ Hjobs)).
    unfold job. erewrite run_then_job; [| exact He | done].
    rewrite Hres. change (run 0 ?s) with s. simpl.
    by rewrite app_nil_r. }
  split; [by rewrite Hturn |].
  rewrite run_add, Hturn.
  match goal with |- context [run n ?s] => set (st2 := s) end.
  assert (Hh2 : ¬ held (next st) st2).
  { intros [(p' & pr' & r & Hp' & Hr & Hin) | [H | H]]; simpl in *.
    - destruct (decide (p' = next st)) as [->|Hne].
      + rewrite lookup_insert_eq in Hp'. injection Hp' as <-.
        destruct (snd (hbody h arg)); by apply elem_of_nil in Hr.
      + rewrite lookup_insert_ne in Hp' by done. apply Hh. left. eauto 10.
    - apply Hh. right. by left.
    - apply Hh. right. by right. }
  destruct (run_unheld (next st) n st2) as (_ & H1 & H2 & H3); [done | done | done |].
  split; [done |]. split; [done |].
  unfold outcome_of. rewrite H3. simpl. rewrite lookup_insert_eq. simpl.
  by destruct (snd (hbody h arg)).
Qed.

Lemma handler_registered_after_settlement_runs_once_witness :
  let st1 := snd (promise_then 7 (Some log_result) (Some log_error) level91_settled) in
  length (jobs level91_settled) = 1
  ∧ trace (run 2 st1)
    = trace (run 1 st1)
      ++ [EvCall "result => console.log(result)" (VStr "Operation successful!");
          EvLog (VStr "Operation successful!"); EvSettle 8 (Normal VUndef)].
Proof.
  intros st1.
  assert (Hk : length (jobs level91_settled) = 1) by (vm_compute; reflexivity).
  assert (Ho : outcome_of 7 level91_settled = Some (Normal (VStr "Operation successful!")))
    by (vm_compute; reflexivity).
  assert (Hd : fst (promise_then 7 (Some log_result) (Some log_error) level91_settled) = 8)
    by (vm_compute; reflexivity).
  split; [exact Hk |].
  pose proof (proj1 (proj2 (proj2
    (handler_registered_after_settlement_runs_once level91_settled 7
       (Normal (VStr "Operation successful!")) (Some log_result) (Some log_error)
       log_result 0 0 (proj1 level91_settled_sound) (proj2 level91_settled_sound)
       Ho eq_refl)))) as Ht.
  rewrite Hk, Hd in Ht. exact Ht.
Defined.

(** ** Times *)

(** *** The chain of [runSequential] *)

Lemma chain_cycle_clock s rest self k h nx ag na ck tr :
  self < nx -> h !! self = Some fresh_promise ->
  ∃ h',
    h' !! self = Some fresh_promise
    ∧ run 3 (chain self k (s :: rest) (Rt h nx ag na [] [] ck tr))
      = match body_end s with
        | Normal v =>
            chain self (S k) rest
              (Rt h' (S (S nx)) ag na [] [] (ck + delay s)
                  (tr ++ [EvInvoke k nx; EvSettle (S nx) (Normal VUndef);
                          EvSettle nx (Normal v); EvLog v]))
        | Throw e =>
            Rt (<[self := Promise Rejected None (Some e) []]> h') (S (S nx)) ag na [] []
               (ck + delay s)
               (tr ++ [EvInvoke k nx; EvSettle (S nx) (Normal VUndef);
                       EvSettle nx (Throw e); EvSettle self (Throw e)])
        end.
Proof.
  intros Hlt Hself.
  unfold chain at 1. unfold call_step, alloc, setTimeout, subscribe.
  norm. heap_lookup. norm. heap_lookup. norm.
  turn. unfold settle at 1. norm. heap_lookup. norm.
  turn. norm. unfold settle at 1. norm. heap_lookup. norm.
  turn. norm.
  replace (ck `max` (ck + delay s)) with (ck + delay s) by lia.
  destruct (body_end s) as [v|e]; norm.
  - eexists. split; [| rewrite <- !app_assoc; reflexivity].
    by heap_lookup.
  - unfold settle. norm. heap_lookup. rewrite Hself. norm.
    eexists. split; [| rewrite <- !app_assoc; reflexivity].
    by heap_lookup.
Qed.

Lemma chain_run_clock steps : ∀ self k h nx ag na ck tr,
  self < nx -> h !! self = Some fresh_promise ->
  clock (run (chain_turns steps) (chain self k steps (Rt h nx ag na [] [] ck tr)))
  = ck + chain_time steps.
Proof.
  induction steps as [|s rest IH]; intros self k h nx ag na ck tr Hlt Hself.
  - simpl. unfold settle. norm. rewrite Hself. norm. unfold run. simpl. lia.
  - cbn [chain_turns chain_time]. rewrite run_add.
    destruct (chain_cycle_clock s rest self k h nx ag na ck tr Hlt Hself)
      as (h' & Hself' & ->).
    destruct (body_end s) as [v|e].
    + rewrite IH by (done || lia). lia.
    + unfold run. simpl. lia.
Qed.

Lemma runSequential_clock steps n :
  clock (run (chain_turns steps + n) (snd (runSequential steps init))) = chain_time steps.
Proof.
  rewrite run_add.
  destruct (runSequential_run steps 0) as (_ & _ & _ & Hq).
  rewrite Nat.add_0_r in Hq.
  rewrite run_quiescent by (by apply step_None_quiescent).
  unfold runSequential, alloc, init. simpl.
  rewrite chain_run_clock; [done | lia | by heap_lookup].
Qed.

Lemma chain_time_fulfils steps :
  Forall fulfils steps -> chain_time steps = sum_list (delay <$> steps).
Proof.
  induction 1 as [|s rest [v Hv] _ IH]; [done |].
  cbn [chain_time fmap list_fmap sum_list]. simpl. by rewrite Hv, IH.
Qed.

Lemma chain_time_rejecting pre d e post :
  Forall fulfils pre ->
  chain_time (pre ++ StepFn d (Throw e) :: post) = sum_list (delay <$> pre) + d.
Proof.
  induction 1 as [|s pre [v Hv] _ IH]; [simpl; lia |].
  cbn [app chain_time]. rewrite Hv, IH, fmap_cons. simpl. lia.
Qed.

(** X4: When every step fulfils, the chain of [runSequential] ends fulfilled
    with [undefined] at the sum of the delays of its steps: each step's timer
    is started only when the step before it is over. *)
Theorem sequential_chain_takes_the_sum (steps : list step_fn) (n : nat) :
  Forall fulfils steps ->
  let final := run (chain_turns steps + n) (snd (runSequential steps init)) in
  outcome_of (fst (runSequential steps init)) final = Some (Normal VUndef)
  ∧ clock final = sum_list (delay <$> steps)
  ∧ quiescent final.
Proof.
  intros Hall final.
  destruct (runSequential_run steps n) as (Hself & _ & Ho & Hq).
  fold final in Ho, Hq. rewrite Hself.
  split; [| split; [| done]].
  - rewrite Ho. f_equal. clear -Hall.
    induction Hall as [|s rest [v Hv] _ IH]; [done |].
    cbn [chain_outcome]. by rewrite Hv.
  - unfold final. by rewrite runSequential_clock, chain_time_fulfils.
Qed.

Lemma sequential_chain_takes_the_sum_witness :
  clock (run 9 (snd (runSequential level92_steps init))) = 4500.
Proof.
  assert (Hall : Forall fulfils level92_steps).
  { repeat constructor; eexists; reflexivity. }
  exact (proj1 (proj2 (sequential_chain_takes_the_sum level92_steps 0 Hall))).
Defined.

(** X5: When step [k] rejects, the chain is over at the sum of the delays of
    steps [0..k]: the delays of the steps after [k] are never waited for, and
    no timer is left. *)
Theorem rejected_step_ends_chain_early
    (pre post : list step_fn) (d : nat) (e : val) (n : nat) :
  Forall fulfils pre ->
  let steps := pre ++ StepFn d (Throw e) :: post in
  let final := run (3 * S (length pre) + n) (snd (runSequential steps init)) in
  clock final = sum_list (delay <$> pre) + d
  ∧ timers final = []
  ∧ jobs final = [].
Proof.
  intros Hpre steps final.
  destruct (runSequential_run steps n) as (_ & _ & _ & Hq).
  pose proof (runSequential_clock steps n) as Hc.
  unfold steps in Hq, Hc.
  rewrite (chain_turns_rejecting pre d e post Hpre) in Hq, Hc.
  rewrite (chain_time_rejecting pre d e post Hpre) in Hc.
  fold steps final in Hq, Hc. destruct Hq as [Hj Ht]. done.
Qed.

Lemma rejected_step_ends_chain_early_witness :
  let steps := [StepFn 10 (Normal (VNum 1)); StepFn 5 (Throw (VStr "boom"));
                StepFn 1000 (Normal (VNum 3))] in
  clock (run 6 (snd (runSequential steps init))) = 15.
Proof.
  intros steps.
  assert (Hpre : Forall fulfils [StepFn 10 (Normal (VNum 1))]).
  { repeat constructor. by exists (VNum 1). }
  exact (proj1 (rejected_step_ends_chain_early [StepFn 10 (Normal (VNum 1))]
                  [StepFn 1000 (Normal (VNum 3))] 5 (VStr "boom") 0 Hpre)).
Defined.

(** *** [Promise.all] *)

Lemma par_turn_fulfil_clock ins l1 l2 i d v st :
  par_inv ins (l1 ++ (i, (d, Normal v)) :: l2) st ->
  pick_timer (timers st)
  = Some (timer_of (i, (d, Normal v)), timer_of <$> (l1 ++ l2)) ->
  l1 ++ l2 ≠ [] ->
  clock (run 2 st) = Nat.max (clock st) d.
Proof.
  intros [Hj Ht Hs He (vals & Hag & Hlen & Hnone & Hsome) Hp Hr Hd Hc] Hpick Hne.
  assert (Hu : (i, (d, Normal v)) ∈ l1 ++ (i, (d, Normal v)) :: l2).
  { apply elem_of_app. right. by left. }
  pose proof (Hp _ Hu) as Hpu. pose proof (Hnone _ Hu) as Hnu.
  rewrite (run_step 1 st _ (step_timer st _ _ Hj Hpick)).
  destruct st as [h nx ag na js ts ck tr]. simpl in *. subst js.
  unfold settle. norm. rewrite Hpu. norm.
  erewrite run_step by (apply step_job; reflexivity). norm.
  unfold resolve_element. norm. rewrite Hag. norm. rewrite Hnu. norm.
  rewrite length_app. simpl. rewrite Nat.add_succ_r. simpl. rewrite <- length_app.
  destruct (length (l1 ++ l2)) as [|m] eqn:Hm; [by destruct (l1 ++ l2) |].
  norm. unfold run. done.
Qed.

Lemma latest_middle (l1 l2 : list (nat * (nat * completion))) u :
  latest (l1 ++ u :: l2) = Nat.max (u.2.1) (latest (l1 ++ l2)).
Proof.
  unfold latest. induction l1 as [|x l1 IH]; simpl; [done |]. rewrite IH. lia.
Qed.

Lemma par_last_clocks ins i d v st t :
  par_inv ins [(i, (d, Normal v))] st ->
  clock (run (S t) st) = Nat.max (clock st) d.
Proof.
  intros [Hj Ht Hs He (vals & Hag & Hlen & Hnone & Hsome) Hp Hr Hd Hc].
  assert (Hu : (i, (d, Normal v)) ∈ [(i, (d, Normal v))]) by (by left).
  pose proof (Hp _ Hu) as Hpu. pose proof (Hnone _ Hu) as Hnu.
  pose proof (He _ Hu) as Heu. simpl in Heu.
  assert (Hi : i < length ins) by (by eapply lookup_lt_Some).
  destruct st as [h nx ag na js ts ck tr]. simpl in *. subst js ts.
  erewrite run_step by (apply step_timer; reflexivity). norm.
  unfold settle. norm. rewrite Hpu. norm.
  destruct t as [|t]; [done |].
  erewrite run_step by (apply step_job; reflexivity). norm.
  unfold resolve_element. norm. rewrite Hag. norm. rewrite Hnu. norm.
  unfold settle. norm. rewrite lookup_insert_ne by lia. rewrite Hr. norm.
  destruct t as [|t]; [done |].
  erewrite run_step by (apply step_job; reflexivity). norm.
  unfold call_handler, settle. norm. rewrite !lookup_insert_ne by lia. rewrite Hd. norm.
  rewrite run_quiescent by (apply step_None_quiescent; by split). done.
Qed.

Lemma par_run_until_last ins : ∀ k ents st,
  length ents = S k -> par_inv ins ents st ->
  Forall (fun x => ∃ v, x.2.2 = Normal v) ents ->
  ∃ i d v, par_inv ins [(i, (d, Normal v))] (run (2 * k) st)
    ∧ Nat.max (clock (run (2 * k) st)) d = Nat.max (clock st) (latest ents).
Proof.
  induction k as [|k IH]; intros ents st Hlen Hinv Hall.
  - destruct ents as [|[i [d c]] [|? ?]]; try done.
    apply Forall_cons in Hall as [[v Hv] _]. simpl in Hv. subst c.
    exists i, d, v. split; [done |]. unfold run, latest. simpl. lia.
  - destruct (pick_timer_is_Some (timers st)) as [[t rest] Hpick].
    { rewrite (pi_timers _ _ _ Hinv). by destruct ents. }
    pose proof Hpick as Hpick'. rewrite (pi_timers _ _ _ Hinv) in Hpick'.
    apply pick_entries in Hpick' as (l1 & [i [d c]] & l2 & -> & -> & -> & _ & _).
    assert (Hu : ∃ v, c = Normal v).
    { rewrite Forall_forall in Hall.
      apply (Hall (i, (d, c))), elem_of_app. right. by left. }
    destruct Hu as [v ->].
    assert (Hlen' : length (l1 ++ l2) = S k).
    { rewrite length_app in *. simpl in Hlen. lia. }
    assert (Hne : l1 ++ l2 ≠ []) by (intros Hnil; by rewrite Hnil in Hlen').
    replace (2 * S k) with (2 + 2 * k) by lia. rewrite run_add.
    destruct (IH (l1 ++ l2) (run 2 st)) as (i2 & d2 & v2 & Hinv2 & Hck);
      [done | by apply (par_turn_fulfil ins l1 l2 i d v) | |].
    { apply Forall_app in Hall as [H1 [_ H2]%Forall_cons]. by apply Forall_app. }
    exists i2, d2, v2. split; [done |].
    rewrite Hck, (par_turn_fulfil_clock ins l1 l2 i d v) by done.
    rewrite latest_middle. simpl. lia.
Qed.

Lemma latest_entries ins b : latest (entries b ins) = slowest ins.
Proof.
  revert b. induction ins as [|x ins IH]; intros b; [done |].
  unfold latest, slowest in *. simpl. by rewrite IH.
Qed.

Lemma clock_settle p c st : clock (settle p c st) = clock st.
Proof.
  unfold settle. destruct (heap st !! p) as [pr|]; [| done]. by destruct (state pr).
Qed.

Lemma clock_subscribe p r st : clock (subscribe p r st) = clock st.
Proof.
  unfold subscribe. destruct (heap st !! p) as [pr|]; [| done]. by destruct (outcome pr).
Qed.

Lemma clock_all_elements a ps : ∀ i st, clock (all_elements a i ps st) = clock st.
Proof.
  induction ps as [|p ps IH]; intros i st; [done |].
  simpl. rewrite IH, clock_subscribe. by destruct (aggs st !! a).
Qed.

Lemma clock_promise_all ps st : clock (snd (promise_all ps st)) = clock st.
Proof.
  unfold promise_all, alloc. simpl.
  match goal with |- context [all_elements ?a ?i ?l ?s] =>
    pose proof (clock_all_elements a l i s) as Hk;
    set (st3 := all_elements a i l s) in *
  end.
  simpl in Hk. destruct (aggs st3 !! next_agg st) as [ag|]; [| done].
  simpl. destruct (pred (remaining ag)); [by rewrite clock_settle | done].
Qed.

Lemma clock_promise_then p onF onR st : clock (snd (promise_then p onF onR st)) = clock st.
Proof. unfold promise_then, alloc. simpl. by rewrite clock_subscribe. Qed.

Lemma clock_parallel_program ins : clock (snd (parallel_program ins)) = 0.
Proof.
  unfold parallel_program, parallel.
  destruct (make_inputs_spec ins init eq_refl) as (h1 & -> & _).
  match goal with |- context [promise_all ?ps ?s] =>
    pose proof (clock_promise_all ps s) as H2;
    destruct (promise_all ps s) as [r st2]
  end.
  match goal with |- context [promise_then ?p ?f ?g ?s] =>
    pose proof (clock_promise_then p f g s) as H3;
    destruct (promise_then p f g s) as [d st3]
  end.
  simpl in *. congruence.
Qed.

(** X6: [Promise.all] over timed inputs that all fulfil waits for the slowest of
    them: its result is still pending through the turns in which the other
    inputs settle, and at any moment at which it is settled the time is the
    largest of the delays, not their sum. *)
Theorem parallel_waits_for_the_slowest (ins : list (nat * completion)) (t : nat) :
  ins ≠ [] ->
  Forall (fun x => ∃ v, x.2 = Normal v) ins ->
  let r := fst (parallel_program ins) in
  let st := run t (snd (parallel_program ins)) in
  (t <= 2 * (length ins - 1) -> outcome_of r st = None)
  ∧ (2 * (length ins - 1) < t -> clock st = slowest ins)
  ∧ (is_Some (outcome_of r st) -> clock st = slowest ins).
Proof.
  intros Hne Hall r st.
  destruct (parallel_program_setup ins Hne) as [Hr Hinv].
  assert (Hlen : length (entries 0 ins) = S (pred (length ins))).
  { rewrite length_entries. destruct ins; [done | simpl; lia]. }
  assert (Hall' : Forall (fun x => ∃ v, x.2.2 = Normal v) (entries 0 ins)).
  { apply Forall_forall. intros y (i & _ & Hi)%elem_of_entries.
    rewrite Forall_forall in Hall. apply (Hall y.2).
    by eapply list_elem_of_lookup_2. }
  destruct (par_run_until_last ins _ _ _ Hlen Hinv Hall') as (i & d & v & Hlast & Hck).
  rewrite latest_entries, clock_parallel_program in Hck. simpl in Hck.
  replace (length ins - 1) with (pred (length ins)) by lia.
  set (k := pred (length ins)) in *.
  assert (Hpend : t <= 2 * k -> outcome_of r st = None).
  { intros Hle. destruct (outcome_of r st) as [c|] eqn:Ho; [exfalso | done].
    destruct (keeps_run t _ (wf_parallel_program ins)) as [Hwf _].
    destruct (keeps_run (2 * k - t) _ Hwf) as [_ Hext].
    eapply extends_outcome in Ho; [| exact Hext].
    rewrite <- run_add in Ho. replace (t + (2 * k - t)) with (2 * k) in Ho by lia.
    unfold r in Ho. rewrite Hr in Ho. unfold outcome_of in Ho.
    by rewrite (pi_result _ _ _ Hlast) in Ho. }
  assert (Hlate : 2 * k < t -> clock st = slowest ins).
  { intros Hlt. unfold st. replace t with (2 * k + S (t - 2 * k - 1)) by lia.
    rewrite run_add, (par_last_clocks ins i d v) by done. exact Hck. }
  split; [done |]. split; [done |].
  intros [c Hc]. apply Hlate. destruct (decide (t <= 2 * k)) as [Hle|]; [| lia].
  by rewrite (Hpend Hle) in Hc.
Qed.

Lemma parallel_waits_for_the_slowest_witness :
  clock (run 7 (snd (parallel_program level92_inputs))) = 2000
  ∧ outcome_of 3 (run 4 (snd (parallel_program level92_inputs))) = None.
Proof.
  assert (Hne : level92_inputs ≠ []) by done.
  assert (Hall : Forall (fun x : nat * completion => ∃ v, x.2 = Normal v) level92_inputs).
  { repeat constructor; eexists; reflexivity. }
  split.
  - apply (proj1 (proj2 (parallel_waits_for_the_slowest level92_inputs 7 Hne Hall))).
    simpl. lia.
  - apply (proj1 (parallel_waits_for_the_slowest level92_inputs 4 Hne Hall)).
    simpl. lia.
Defined.

(** *** The first rejection does not wait *)

Lemma par_turn_reject_state ins l1 l2 i d e st :
  par_inv ins (l1 ++ (i, (d, Throw e)) :: l2) st ->
  pick_timer (timers st)
  = Some (timer_of (i, (d, Throw e)), timer_of <$> (l1 ++ l2)) ->
  clock (run 3 st) = Nat.max (clock st) d
  ∧ timers (run 3 st) = timer_of <$> (l1 ++ l2)
  ∧ ∀ x, x ∈ l1 ++ l2 -> outcome_of x.1 (run 3 st) = None.
Proof.
  intros [Hj Ht Hs He (vals & Hag & Hlen & Hnone & Hsome) Hp Hr Hd Hc] Hpick.
  destruct (sorted_middle _ _ _ Hs) as (Hs' & Hlt1 & Hlt2).
  assert (Hu : (i, (d, Throw e)) ∈ l1 ++ (i, (d, Throw e)) :: l2).
  { apply elem_of_app. right. by left. }
  assert (Hother : ∀ x, x ∈ l1 ++ l2 -> x ∈ l1 ++ (i, (d, Throw e)) :: l2 ∧ x.1 ≠ i).
  { intros x [Hx|Hx]%elem_of_app.
    - split; [apply elem_of_app; by left |]. specialize (Hlt1 x Hx). simpl in Hlt1. lia.
    - split; [apply elem_of_app; right; by right |]. specialize (Hlt2 x Hx). simpl in Hlt2. lia. }
  pose proof (Hp _ Hu) as Hpu. pose proof (He _ Hu) as Heu. simpl in Heu.
  assert (Hi : i < length ins) by (by eapply lookup_lt_Some).
  rewrite (run_step 2 st _ (step_timer st _ _ Hj Hpick)).
  destruct st as [h nx ag na js ts ck tr]. simpl in *. subst js.
  unfold settle. norm. rewrite Hpu. norm.
  erewrite run_step by (apply step_job; reflexivity). norm.
  rewrite Hag. norm.
  unfold settle. norm. rewrite lookup_insert_ne by lia. rewrite Hr. norm.
  erewrite run_step by (apply step_job; reflexivity). norm.
  unfold settle. norm. rewrite !lookup_insert_ne by lia. rewrite Hd. norm.
  unfold run, outcome_of. simpl. split; [done |]. split; [done |].
  intros x Hx. destruct (Hother x Hx) as [Hx' Hxi].
  pose proof (He _ Hx') as Hex. apply lookup_lt_Some in Hex.
  rewrite !lookup_insert_ne by lia. by rewrite (Hp _ Hx').
Qed.

Section FailFast.
Variable ins : list (nat * completion).
Variables (j dj : nat) (e : val).
Hypothesis Hj : ins !! j = Some (dj, Throw e).
Hypothesis Hfirst : ∀ i d e', ins !! i = Some (d, Throw e') -> i ≠ j ->
  dj < d ∨ (dj = d ∧ j < i).

Lemma par_run_reject_fast : ∀ k ents st,
  length ents = k -> par_inv ins ents st -> (j, (dj, Throw e)) ∈ ents ->
  clock st <= dj ->
  (∀ x, ins !! x.1 = Some x.2 -> dj < x.2.1 -> x ∈ ents) ->
  ∃ t, outcome_of (length ins) (run t st) = Some (Throw e)
    ∧ clock (run t st) = dj
    ∧ ∀ x, ins !! x.1 = Some x.2 -> dj < x.2.1 ->
        timer_of x ∈ timers (run t st) ∧ outcome_of x.1 (run t st) = None.
Proof.
  induction k as [|k IH]; intros ents st Hlen Hinv Hin Hck Hslow.
  { destruct ents; [by apply elem_of_nil in Hin | done]. }
  destruct (pick_timer_is_Some (timers st)) as [[t rest] Hpick].
  { rewrite (pi_timers _ _ _ Hinv). by destruct ents. }
  pose proof Hpick as Hpick'. rewrite (pi_timers _ _ _ Hinv) in Hpick'.
  apply pick_entries in Hpick' as (l1 & [i [d c]] & l2 & -> & -> & -> & Hl1 & Hl2).
  simpl in Hl1, Hl2. rewrite Forall_forall in Hl1, Hl2.
  destruct (sorted_middle _ _ _ (pi_sorted _ _ _ Hinv)) as (_ & _ & Hs2).
  assert (Hu : ins !! i = Some (d, c)).
  { apply (pi_ents _ _ _ Hinv (i, (d, c))), elem_of_app. right. by left. }
  assert (Hd : d <= dj).
  { apply elem_of_app in Hin as [Hx|[[= <- <- _]|Hx]%elem_of_cons].
    - specialize (Hl1 _ Hx). simpl in Hl1. lia.
    - lia.
    - specialize (Hl2 _ Hx). simpl in Hl2. lia. }
  assert (Hslow' : ∀ x, ins !! x.1 = Some x.2 -> dj < x.2.1 -> x ∈ l1 ++ l2).
  { intros x Hx Hlt. specialize (Hslow x Hx Hlt).
    apply elem_of_app in Hslow as [?|[->|?]%elem_of_cons]; [| simpl in Hlt; lia |];
      apply elem_of_app; auto. }
  destruct c as [v|e'].
  - assert (Hin' : (j, (dj, Throw e)) ∈ l1 ++ l2).
    { apply elem_of_app in Hin as [?|[[=]|?]%elem_of_cons]; apply elem_of_app; auto. }
    assert (Hlen' : length (l1 ++ l2) = k).
    { rewrite length_app in *. simpl in Hlen. lia. }
    assert (Hne : l1 ++ l2 ≠ []).
    { intros Hnil. rewrite Hnil in Hin'. by apply elem_of_nil in Hin'. }
    destruct (IH (l1 ++ l2) (run 2 st) Hlen') as (t & Ho & Hc & Hrest); [| done | | done |].
    + by apply (par_turn_fulfil ins l1 l2 i d v).
    + rewrite (par_turn_fulfil_clock ins l1 l2 i d v) by done. lia.
    + exists (2 + t). rewrite run_add. done.
  - assert (i = j) as ->.
    { destruct (decide (i = j)) as [|Hne]; [done | exfalso].
      destruct (Hfirst i d e' Hu Hne) as [Hlt | [-> Hlt]];
        apply elem_of_app in Hin as [Hx|[[=]|Hx]%elem_of_cons]; try done.
      - specialize (Hl1 _ Hx). simpl in Hl1. lia.
      - specialize (Hl2 _ Hx). simpl in Hl2. lia.
      - specialize (Hl1 _ Hx). simpl in Hl1. lia.
      - specialize (Hs2 _ Hx). simpl in Hs2. lia. }
    rewrite Hj in Hu. injection Hu as <- <-.
    exists 3.
    destruct (par_turn_reject ins l1 l2 j dj e st Hinv Hpick) as (H1 & _ & _).
    destruct (par_turn_reject_state ins l1 l2 j dj e st Hinv Hpick) as (H2 & H3 & H4).
    split; [done |]. split; [lia |].
    intros x Hx Hlt. specialize (Hslow' x Hx Hlt). split; [| by apply H4].
    rewrite H3. by apply list_elem_of_fmap_2.
Qed.

End FailFast.

(** X7: [Promise.all] does not wait once an input has rejected: if input [j]
    is the first to reject, at delay [dj], the result is rejected with its
    error at time [dj], while every input with a longer delay is still
    pending and its timer still outstanding. *)
Theorem parallel_fails_fast (ins : list (nat * completion)) (j dj : nat) (e : val) :
  ins !! j = Some (dj, Throw e) ->
  (∀ i d e', ins !! i = Some (d, Throw e') -> i ≠ j -> dj < d ∨ (dj = d ∧ j < i)) ->
  let r := fst (parallel_program ins) in
  ∃ t,
    let st := run t (snd (parallel_program ins)) in
    outcome_of r st = Some (Throw e)
    ∧ clock st = dj
    ∧ ∀ i d c, ins !! i = Some (d, c) -> dj < d ->
        timer_of (i, (d, c)) ∈ timers st ∧ outcome_of i st = None.
Proof.
  intros Hj Hfirst r.
  assert (Hne : ins ≠ []) by (intros ->; done).
  destruct (parallel_program_setup ins Hne) as [Hr Hinv].
  destruct (par_run_reject_fast ins j dj e Hj Hfirst (length ins) (entries 0 ins) _
              (length_entries ins 0) Hinv) as (t & Ho & Hc & Hrest).
  - apply elem_of_entries. by exists j.
  - rewrite clock_parallel_program. lia.
  - intros x Hx _. apply elem_of_entries. by exists x.1.
  - exists t. unfold r. rewrite Hr. split; [done |]. split; [done |].
    intros i d c Hi Hlt. apply (Hrest (i, (d, c))); done.
Qed.

Lemma parallel_fails_fast_witness :
  let ins := [(1000, Normal (VStr "First")); (500, Throw (VStr "boom"));
              (1500, Normal (VStr "Third"))] in
  ∃ t,
    outcome_of 3 (run t (snd (parallel_program ins))) = Some (Throw (VStr "boom"))
    ∧ clock (run t (snd (parallel_program ins))) = 500
    ∧ outcome_of 2 (run t (snd (parallel_program ins))) = None.
Proof.
  intros ins.
  destruct (parallel_fails_fast ins 1 500 (VStr "boom") eq_refl) as (t & Ho & Hc & Hrest).
  { intros [|[|[|i]]] d e' Hi Hne; try done. }
  exists t. split; [exact Ho |]. split; [exact Hc |].
  apply (Hrest 2 1500 (Normal (VStr "Third")) eq_refl). lia.
Defined.

(** ** The shop *)

Local Arguments Points.increment : simpl never.
Local Arguments Points.max_count : simpl never.

Ltac shop_crunch :=
  unfold Shop.perform, Shop.buySword, Shop.on_world, Shop.spawnMob,
    Points.addPoint, Points.add100, Points.updatePointsDisplay, Points.set_property;
  simpl.

(** X8: Without ten points [buySword] takes nothing and gives nothing: the
    points and the body are as before and only the message element is
    written; when that element exists the call returns and the message reads
    " Not enough points!". *)
Theorem buySword_refused (prop : string) (pg : Shop.page) :
  (Points.points (Shop.world pg) < 10)%Z ->
  let pg' := Shop.after (Shop.buySword prop pg) in
  Points.points (Shop.world pg') = Points.points (Shop.world pg)
  ∧ Shop.body pg' = Shop.body pg
  ∧ (∀ id, id ≠ "message" ->
       Points.document (Shop.world pg') !! id = Points.document (Shop.world pg) !! id)
  ∧ (Shop.has_element "message" pg ->
       Shop.buySword prop pg = Shop.Returned pg'
       ∧ Points.document (Shop.world pg') !! "message" ≫= (fun el => el !! prop)
         = Some (Points.PText " Not enough points!")).
Proof.
  intros Hlt. unfold Shop.has_element. shop_crunch.
  destruct (10 <=? Points.points (Shop.world pg))%Z eqn:E; [apply Z.leb_le in E; lia |].
  destruct (Points.document (Shop.world pg) !! "message") as [el|] eqn:Hm; simpl.
  - split; [done |]. split; [done |]. split.
    + intros id Hid. by rewrite lookup_insert_ne.
    + intros _. split; [done |].
      rewrite lookup_insert_eq. simpl. by rewrite lookup_insert_eq.
  - split; [done |]. split; [done |]. split; [done |]. by intros [? ?].
Qed.

Lemma buySword_refused_witness :
  let pg := Shop.Page (Points.World 9 {["message" := ∅]}) [] in
  Points.points (Shop.world (Shop.after (Shop.buySword "innerText" pg))) = 9%Z.
Proof.
  intros pg. refine (proj1 (buySword_refused "innerText" pg _)). simpl. lia.
Defined.

(** X9: With ten points or more, on a page that has the display and the message,
    [buySword] returns; it takes exactly ten points, shows the new count,
    sets the message and appends exactly one mob at the end of the body. *)
Theorem buySword_bought (prop : string) (pg : Shop.page) :
  (10 <= Points.points (Shop.world pg))%Z ->
  Shop.has_element "pointsDisplay" pg -> Shop.has_element "message" pg ->
  ∃ pg' mob,
    Shop.buySword prop pg = Shop.Returned pg'
    ∧ Points.points (Shop.world pg') = (Points.points (Shop.world pg) - 10)%Z
    ∧ Shop.shown prop pg' = Some (Points.PNum (Points.points (Shop.world pg) - 10))
    ∧ Points.document (Shop.world pg') !! "message" ≫= (fun el => el !! prop)
      = Some (Points.PText " Sword bought! Mobs will spawn!")
    ∧ Shop.body pg' = Shop.body pg ++ [mob]
    ∧ Shop.innerText mob = " Mob Spawned!"
    ∧ Shop.style mob !! "fontSize" = Some "24px"
    ∧ Shop.style mob !! "marginTop" = Some "20px".
Proof.
  intros Hle [d Hd] [m Hm]. unfold Shop.shown. shop_crunch.
  apply Z.leb_le in Hle. rewrite Hle, Hd. simpl.
  rewrite lookup_insert_ne by done. rewrite Hm. simpl.
  eexists _, _. split; [reflexivity |]. simpl.
  rewrite lookup_insert_ne by done. rewrite !lookup_insert_eq. simpl.
  rewrite !lookup_insert_eq. repeat split; try done.
Qed.

Lemma buySword_bought_witness :
  let pg := Shop.Page (Points.World 10 {["pointsDisplay" := ∅; "message" := ∅]}) [] in
  ∃ pg' mob,
    Shop.buySword "innerText" pg = Shop.Returned pg'
    ∧ Points.points (Shop.world pg') = 0%Z
    ∧ Shop.body pg' = [mob].
Proof.
  intros pg.
  destruct (buySword_bought "innerText" pg) as (pg' & mob & H1 & H2 & _ & _ & H5 & _).
  - simpl. lia.
  - by eexists.
  - by eexists.
  - exists pg', mob. repeat split; assumption.
Defined.

(** X10: With ten points or more, on a page that lacks the display or the
    message, [buySword] throws after having taken the ten points: the points
    are paid, no mob is appended. *)
Theorem buySword_charges_without_mob (prop : string) (pg : Shop.page) :
  (10 <= Points.points (Shop.world pg))%Z ->
  Points.document (Shop.world pg) !! "pointsDisplay" = None
  ∨ Points.document (Shop.world pg) !! "message" = None ->
  ∃ pg',
    Shop.buySword prop pg = Shop.Threw pg'
    ∧ Points.points (Shop.world pg') = (Points.points (Shop.world pg) - 10)%Z
    ∧ Shop.body pg' = Shop.body pg.
Proof.
  intros Hle Hmiss. shop_crunch. apply Z.leb_le in Hle. rewrite Hle.
  destruct (Points.document (Shop.world pg) !! "pointsDisplay") as [d|] eqn:Hd; simpl.
  - destruct Hmiss as [|Hm]; [done |].
    rewrite lookup_insert_ne by done. rewrite Hm. by eexists.
  - by eexists.
Qed.

Lemma buySword_charges_without_mob_witness :
  let pg := Shop.Page (Points.World 25 {["pointsDisplay" := ∅]}) [] in
  ∃ pg', Shop.buySword "Text" pg = Shop.Threw pg'
         ∧ Points.points (Shop.world pg') = 15%Z ∧ Shop.body pg' = [].
Proof.
  intros pg. apply (buySword_charges_without_mob "Text" pg).
  - simpl. lia.
  - right. reflexivity.
Defined.

(** What one call does to the points, the body, the elements and the
    display. *)
Lemma perform_effect (prop : string) (c : Shop.call) (pg : Shop.page) :
  let pg' := Shop.after (Shop.perform prop c pg) in
  let p := Points.points (Shop.world pg) in
  let p' := Points.points (Shop.world pg') in
  ((0 <= p)%Z -> (0 <= p')%Z)
  ∧ Shop.body pg `prefix_of` Shop.body pg'
  ∧ (p' + 10 * Z.of_nat (Shop.mobs pg') <= p + 10 * Z.of_nat (Shop.mobs pg)
                                             + Shop.earned [c])%Z
  ∧ (Shop.has_element "pointsDisplay" pg -> Shop.has_element "message" pg ->
     (p + Shop.earned [c] <= Points.max_count)%Z ->
       (p' + 10 * Z.of_nat (Shop.mobs pg') = p + 10 * Z.of_nat (Shop.mobs pg)
                                             + Shop.earned [c])%Z)
  ∧ (∀ id, Shop.has_element id pg <-> Shop.has_element id pg')
  ∧ (Shop.shown prop pg = Some (Points.PNum p) ->
       Shop.shown prop pg' = Some (Points.PNum p')).
Proof.
  unfold Shop.has_element, Shop.shown, Shop.mobs.
  assert (Hdom : ∀ (m : gmap string (gmap string Points.prop)) k el el' id,
            m !! k = Some el -> is_Some (m !! id) <-> is_Some (<[k := el']> m !! id)).
  { intros m k el el' id Hk. destruct (decide (k = id)) as [->|Hne].
    - rewrite lookup_insert_eq, Hk. split; eauto.
    - by rewrite lookup_insert_ne. }
  pose proof (increment_bounds (Points.points (Shop.world pg))) as [Hinc _].
  pose proof (increment_below (Points.points (Shop.world pg))) as Hexact.
  destruct c; unfold Shop.earned; shop_crunch.
  - destruct (Points.document (Shop.world pg) !! "pointsDisplay") as [d|] eqn:Hd; simpl.
    + split; [lia |]. split; [done |]. split; [lia |]. split; [lia |].
      split; [intros id; apply (Hdom _ _ _ _ _ Hd) |].
      intros _. rewrite lookup_insert_eq; simpl; by rewrite lookup_insert_eq.
    + split; [lia |]. split; [done |]. split; [lia |]. split; [lia |].
      split; [done |]. done.
  - destruct (Points.document (Shop.world pg) !! "pointsDisplay") as [d|] eqn:Hd; simpl.
    + split; [lia |]. split; [done |]. split; [lia |]. split; [lia |].
      split; [intros id; apply (Hdom _ _ _ _ _ Hd) |].
      intros _. rewrite lookup_insert_eq; simpl; by rewrite lookup_insert_eq.
    + split; [lia |]. split; [done |]. split; [lia |]. split; [lia |].
      split; [done |]. done.
  - destruct (10 <=? Points.points (Shop.world pg))%Z eqn:E;
      [apply Z.leb_le in E | apply Z.leb_gt in E].
    + destruct (Points.document (Shop.world pg) !! "pointsDisplay") as [d|] eqn:Hd; simpl.
      * rewrite lookup_insert_ne by done.
        destruct (Points.document (Shop.world pg) !! "message") as [m|] eqn:Hm; simpl.
        -- rewrite length_app. simpl.
           split; [lia |]. split; [by apply prefix_app_r |].
           split; [lia |]. split; [lia |]. split.
           ++ intros id. etrans; [eapply (Hdom _ _ _ _ _ Hd) |].
              eapply (Hdom _ "message"). rewrite lookup_insert_ne by done. exact Hm.
           ++ intros _. rewrite lookup_insert_ne by done.
              rewrite lookup_insert_eq; simpl; by rewrite lookup_insert_eq.
        -- split; [lia |]. split; [done |]. split; [lia |].
           split; [by intros _ [? ?] |]. split; [intros id; apply (Hdom _ _ _ _ _ Hd) |].
           intros _. rewrite lookup_insert_eq; simpl; by rewrite lookup_insert_eq.
      * split; [lia |]. split; [done |]. split; [lia |].
        split; [by intros [? ?] |]. split; [done |]. done.
    + destruct (Points.document (Shop.world pg) !! "message") as [m|] eqn:Hm; simpl.
      * split; [done |]. split; [done |]. split; [lia |]. split; [lia |].
        split; [intros id; apply (Hdom _ _ _ _ _ Hm) |]. by rewrite lookup_insert_ne.
      * split; [done |]. split; [done |]. split; [lia |]. split; [lia |].
        split; [done |]. done.
Qed.

Lemma earned_cons (c : Shop.call) (cs : list Shop.call) :
  Shop.earned (c :: cs) = (Shop.earned [c] + Shop.earned cs)%Z.
Proof. unfold Shop.earned. simpl. lia. Qed.

Lemma earned_nonneg (cs : list Shop.call) : (0 <= Shop.earned cs)%Z.
Proof.
  induction cs as [|c cs IH]; [done |].
  rewrite earned_cons. unfold Shop.earned at 1. destruct c; simpl; lia.
Qed.

(** The same for a sequence of calls. *)
Lemma play_effect (prop : string) (cs : list Shop.call) : ∀ pg : Shop.page,
  let pg' := Shop.play prop cs pg in
  let p := Points.points (Shop.world pg) in
  let p' := Points.points (Shop.world pg') in
  ((0 <= p)%Z -> (0 <= p')%Z)
  ∧ Shop.body pg `prefix_of` Shop.body pg'
  ∧ (p' + 10 * Z.of_nat (Shop.mobs pg') <= p + 10 * Z.of_nat (Shop.mobs pg)
                                             + Shop.earned cs)%Z
  ∧ (Shop.has_element "pointsDisplay" pg -> Shop.has_element "message" pg ->
     (p + Shop.earned cs <= Points.max_count)%Z ->
       (p' + 10 * Z.of_nat (Shop.mobs pg') = p + 10 * Z.of_nat (Shop.mobs pg)
                                             + Shop.earned cs)%Z)
  ∧ (∀ id, Shop.has_element id pg <-> Shop.has_element id pg')
  ∧ (Shop.shown prop pg = Some (Points.PNum p) ->
       Shop.shown prop pg' = Some (Points.PNum p')).
Proof.
  induction cs as [|c cs IH]; intros pg.
  - simpl. unfold Shop.earned. simpl.
    split; [done |]. split; [done |]. split; [lia |]. split; [lia |]. done.
  - cbn [Shop.play foldl]. rewrite earned_cons.
    destruct (perform_effect prop c pg) as (H1 & H2 & H3 & H4 & H5 & H6).
    destruct (IH (Shop.after (Shop.perform prop c pg))) as (I1 & I2 & I3 & I4 & I5 & I6).
    fold (Shop.play prop cs (Shop.after (Shop.perform prop c pg))) in *.
    pose proof (earned_nonneg cs) as Hcs.
    pose proof (prefix_length _ _ H2) as Hlen. unfold Shop.mobs in *.
    split; [auto |]. split; [etrans; [exact H2 | exact I2] |]. split; [lia |]. split.
    + intros Hd Hm Hmax. assert (H4' := H4 Hd Hm). 
      apply H5 in Hd. apply H5 in Hm. assert (I4' := I4 Hd Hm). lia.
    + split; [intros id; etrans; [apply H5 | apply I5] |]. auto.
Qed.

(** From [let points = 0] the functions of the file keep the counter between
    0 and 2^53, the range on which the arithmetic of the model is the
    arithmetic of doubles. *)
Lemma perform_in_range (prop : string) (c : Shop.call) (pg : Shop.page) :
  (0 <= Points.points (Shop.world pg) <= Points.max_count)%Z ->
  (0 <= Points.points (Shop.world (Shop.after (Shop.perform prop c pg)))
     <= Points.max_count)%Z.
Proof.
  intros Hp.
  pose proof (increment_bounds (Points.points (Shop.world pg))) as [Hinc Hmax].
  destruct c; shop_crunch.
  - destruct (Points.document (Shop.world pg) !! "pointsDisplay"); simpl; lia.
  - destruct (Points.document (Shop.world pg) !! "pointsDisplay"); simpl; lia.
  - destruct (10 <=? Points.points (Shop.world pg))%Z eqn:E;
      [apply Z.leb_le in E | apply Z.leb_gt in E].
    + destruct (Points.document (Shop.world pg) !! "pointsDisplay"); simpl; [| lia].
      rewrite lookup_insert_ne by done.
      destruct (Points.document (Shop.world pg) !! "message"); simpl; lia.
    + destruct (Points.document (Shop.world pg) !! "message"); simpl; lia.
Qed.

Lemma play_in_range (prop : string) (cs : list Shop.call) : ∀ pg : Shop.page,
  (0 <= Points.points (Shop.world pg) <= Points.max_count)%Z ->
  (0 <= Points.points (Shop.world (Shop.play prop cs pg)) <= Points.max_count)%Z.
Proof.
  induction cs as [|c cs IH]; intros pg Hp; [done |].
  cbn [Shop.play foldl]. apply IH. by apply perform_in_range.
Qed.

(** X11: Whatever is called and in whatever order, the points never become
    negative: [buySword] checks the price before it takes it. *)
Theorem points_never_negative (prop : string) (cs : list Shop.call) (pg : Shop.page) :
  (0 <= Points.points (Shop.world pg))%Z ->
  (0 <= Points.points (Shop.world (Shop.play prop cs pg)))%Z.
Proof. apply (play_effect prop cs pg). Qed.

Lemma points_never_negative_witness :
  (0 <= Points.points (Shop.world
          (Shop.play "innerText" [Shop.CallBuySword; Shop.CallAddPoint; Shop.CallBuySword]
             (Shop.Page (Points.World 10 ∅) []))))%Z.
Proof.
  apply (points_never_negative "innerText"). simpl. lia.
Defined.

(** X12: On a page that has the display and the message, every point is accounted
    for as long as the counter cannot reach 2^53, where [points++] stops
    counting: if the points at the start are not negative and, with one more
    per call of [addPoint], do not exceed 2^53, then after the calls the
    points plus ten per mob spawned equal the points at the start plus one
    per call of [addPoint]. *)
Theorem points_and_mobs_balance (prop : string) (cs : list Shop.call) (pg : Shop.page) :
  Shop.has_element "pointsDisplay" pg -> Shop.has_element "message" pg ->
  (0 <= Points.points (Shop.world pg))%Z ->
  (Points.points (Shop.world pg) + Shop.earned cs <= 2 ^ 53)%Z ->
  let pg' := Shop.play prop cs pg in
  (Points.points (Shop.world pg') + 10 * Z.of_nat (Shop.mobs pg')
   = Points.points (Shop.world pg) + 10 * Z.of_nat (Shop.mobs pg) + Shop.earned cs)%Z.
Proof.
  intros Hd Hm _ Hmax. by apply (play_effect prop cs pg).
Qed.

Lemma points_and_mobs_balance_witness :
  let pg := Shop.Page (Points.World 9 {["pointsDisplay" := ∅; "message" := ∅]}) [] in
  let pg' := Shop.play "innerText"
               [Shop.CallBuySword; Shop.CallAddPoint; Shop.CallAdd100; Shop.CallBuySword] pg in
  (Points.points (Shop.world pg') + 10 * Z.of_nat (Shop.mobs pg') = 9 + 10 * 0 + 1)%Z.
Proof.
  intros pg pg'. apply (points_and_mobs_balance "innerText").
  - by eexists.
  - by eexists.
  - simpl. lia.
  - vm_compute. discriminate.
Defined.

(** X13: On any page, mobs are only ever added, at the end of the body, and each
    one was paid for: ten times the mobs spawned never exceed the points at
    the start plus one per call of [addPoint]. Calls of [add100] buy nothing. *)
Theorem mobs_are_paid_for (prop : string) (cs : list Shop.call) (pg : Shop.page) :
  (0 <= Points.points (Shop.world pg))%Z ->
  let pg' := Shop.play prop cs pg in
  Shop.body pg `prefix_of` Shop.body pg'
  ∧ (10 * (Z.of_nat (Shop.mobs pg') - Z.of_nat (Shop.mobs pg))
     <= Points.points (Shop.world pg) + Shop.earned cs)%Z.
Proof.
  intros Hp pg'. destruct (play_effect prop cs pg) as (H1 & H2 & H3 & _).
  split; [done |]. specialize (H1 Hp). fold pg' in H1, H3. lia.
Qed.

Lemma mobs_are_paid_for_witness :
  let pg := Shop.Page (Points.World 0 {["pointsDisplay" := ∅; "message" := ∅]}) [] in
  let pg' := Shop.play "innerText" [Shop.CallAdd100; Shop.CallAdd100; Shop.CallBuySword] pg in
  (10 * (Z.of_nat (Shop.mobs pg') - 0) <= 0 + 0)%Z.
Proof.
  intros pg pg'.
  refine (proj2 (mobs_are_paid_for "innerText"
                   [Shop.CallAdd100; Shop.CallAdd100; Shop.CallBuySword] pg _)).
  simpl. lia.
Defined.

(** X14: Once the display shows the points it shows them after every call, in
    whatever order the functions are called. *)
Theorem display_stays_in_sync (prop : string) (cs : list Shop.call) (pg : Shop.page) :
  Shop.shown prop pg = Some (Points.PNum (Points.points (Shop.world pg))) ->
  let pg' := Shop.play prop cs pg in
  Shop.shown prop pg' = Some (Points.PNum (Points.points (Shop.world pg'))).
Proof. apply (play_effect prop cs pg). Qed.

Lemma display_stays_in_sync_witness :
  let pg := Shop.Page (Points.World 12 {["pointsDisplay" := {["Text" := Points.PNum 12]};
                                        "message" := ∅]}) [] in
  Shop.shown "Text" (Shop.play "Text" [Shop.CallAddPoint; Shop.CallBuySword] pg)
  = Some (Points.PNum 3).
Proof.
  intros pg. apply (display_stays_in_sync "Text"). reflexivity.
Defined.
